(** * EA_Ejercicios_JS: the linear containers of [ea02_EstructurasBasicas]

    A shallow embedding of the container classes of the repository
    ([Stack], [Queue], [Bag], all backed by a JavaScript array, and
    [ListaSimple], backed by a chain of [Nodo] objects) together with the
    properties their specification states about them, followed by the
    date classes [FechaComparable] and [ComparableDate] and the way the
    relational operators order them.

    Modelling conventions.
    - A JavaScript value that can be stored as an item is a [JSValue].
      The containers never inspect their items, so numbers are kept as
      integers.
    - A method is a function [this -> Completion result * this]: it
      receives the receiver's state and hands back how the call completed
      and the receiver's state afterwards (the state survives a [throw]).
    - [Array] lengths and the counter [#n] are mathematical integers: a
      Number is exact below 2^53 and an array holds fewer than 2^32
      elements, bounds that no container of this code base reaches before
      the heap is exhausted.
    - Objects created by [new Nodo()] live in a heap indexed by
      locations; an object reference is a location. *)

From Stdlib Require Import Ascii.
From stdpp Require Import gmap strings list pretty.

Local Open Scope Z_scope.

(** ** JavaScript values, errors and completions *)

Inductive JSValue : Type :=
  | JSUndefined
  | JSNull
  | JSBool (b : bool)
  | JSNum (z : Z)
  | JSStr (s : string).

Global Instance JSValue_eq_dec : EqDecision JSValue.
Proof. solve_decision. Defined.

(** The "absent" items of the specification: [null] and [undefined]. *)
Definition absent (v : JSValue) : bool :=
  match v with
  | JSUndefined | JSNull => true
  | _ => false
  end.

(** The native error constructors of the global object. *)
Inductive ErrorClass : Type :=
  | Error
  | EvalError
  | RangeError
  | ReferenceError
  | SyntaxError
  | TypeError
  | URIError.

Global Instance ErrorClass_eq_dec : EqDecision ErrorClass.
Proof. solve_decision. Defined.

Record ErrorObject : Type := mkErrorObject {
  error_class : ErrorClass;
  message : string
}.

(** [e instanceof C]: the prototype of every native error inherits from
    [Error.prototype], and from no other native error. *)
Definition instanceof (e : ErrorObject) (C : ErrorClass) : bool :=
  bool_decide (C = Error) || bool_decide (C = error_class e).

(** How a call completes.  [Stuck] marks a read through a reference that
    denotes no object; JavaScript has no such references, and the
    invariants below show the containers never produce one. *)
Inductive Completion (A : Type) : Type :=
  | Normal (a : A)
  | Throw (e : ErrorObject)
  | Stuck.

Arguments Normal {A} a.
Arguments Throw {A} e.
Arguments Stuck {A}.

Definition throws {A : Type} (c : Completion A) : bool :=
  match c with
  | Throw _ => true
  | _ => false
  end.

(** ** Methods as state-and-exception computations *)

Definition JS (S A : Type) : Type := S -> Completion A * S.

Definition ret {S A : Type} (a : A) : JS S A := fun s => (Normal a, s).

Definition bind {S A B : Type} (m : JS S A) (k : A -> JS S B) : JS S B :=
  fun s =>
    match m s with
    | (Normal a, s') => k a s'
    | (Throw e, s') => (Throw e, s')
    | (Stuck, s') => (Stuck, s')
    end.

Definition throw {S A : Type} (e : ErrorObject) : JS S A :=
  fun s => (Throw e, s).

Definition stuck {S A : Type} : JS S A := fun s => (Stuck, s).

Definition gets {S A : Type} (f : S -> A) : JS S A := fun s => (Normal (f s), s).

Definition modify {S : Type} (f : S -> S) : JS S unit := fun s => (Normal tt, f s).

(** The methods are written with stdpp's monadic notation
    [x ← m; k] and [m;; k]. *)
Global Instance JS_ret {S : Type} : MRet (JS S) := fun A => @ret S A.
Global Instance JS_bind {S : Type} : MBind (JS S) :=
  fun A B k m => @bind S A B m k.

(** ** Identifier resolution for [new C(msg)]

    [new C(msg)] first evaluates the identifier [C].  The modules of the
    repository import [assert] and declare only their own classes and
    test variables, so any other identifier is looked up in the global
    object, which binds the native error constructors below.  An
    identifier bound nowhere makes the evaluation throw a
    [ReferenceError] before anything is constructed. *)

Definition global_error_constructors : list (string * ErrorClass) :=
  [ ("Error", Error); ("EvalError", EvalError); ("RangeError", RangeError);
    ("ReferenceError", ReferenceError); ("SyntaxError", SyntaxError);
    ("TypeError", TypeError); ("URIError", URIError) ]%string.

Fixpoint resolve (bindings : list (string * ErrorClass)) (name : string)
  : option ErrorClass :=
  match bindings with
  | [] => None
  | (k, C) :: rest => if bool_decide (k = name) then Some C else resolve rest name
  end.

Definition new_error {S : Type} (name msg : string) : JS S ErrorObject :=
  match resolve global_error_constructors name with
  | Some C => ret (mkErrorObject C msg)
  | None => throw (mkErrorObject ReferenceError (name ++ " is not defined"))
  end.

(** ** The methods of [Array.prototype] used by the containers *)

Module Array.

Definition length (a : list JSValue) : Z := Z.of_nat (List.length a).

(** [a.push(x)] appends [x] and returns the new length. *)
Definition push (a : list JSValue) (x : JSValue) : Z * list JSValue :=
  (length a + 1, a ++ [x]).

(** [a.pop()]: with length 0 the result is [undefined]; otherwise the
    element at index [length - 1] is returned and deleted. *)
Definition pop (a : list JSValue) : JSValue * list JSValue :=
  match List.length a with
  | O => (JSUndefined, a)
  | S k => (default JSUndefined (a !! k), take k a)
  end.

(** [a.shift()]: with length 0 the result is [undefined]; otherwise the
    element at index 0 is returned and the others move down by one. *)
Definition shift (a : list JSValue) : JSValue * list JSValue :=
  match a with
  | [] => (JSUndefined, [])
  | x :: rest => (x, rest)
  end.

End Array.

(** ** [Stack.mjs] *)

Module Stack.

Record t : Type := mk { items : list JSValue }.

Definition constructor : t := {| items := [] |}.

Definition push (item : JSValue) : JS t unit :=
  fun this =>
    let '(_, a) := Array.push (items this) item in
    (Normal tt, {| items := a |}).

Definition pop : JS t JSValue :=
  fun this =>
    let '(x, a) := Array.pop (items this) in
    (Normal x, {| items := a |}).

Definition isEmpty (this : t) : bool :=
  bool_decide (Array.length (items this) = 0).

Definition size (this : t) : Z := Array.length (items this).

End Stack.

(** ** [Queue.mjs] *)

Module Queue.

Record t : Type := mk { items : list JSValue }.

Definition constructor : t := {| items := [] |}.

Definition enqueue (item : JSValue) : JS t unit :=
  fun this =>
    let '(_, a) := Array.push (items this) item in
    (Normal tt, {| items := a |}).

Definition dequeue : JS t JSValue :=
  fun this =>
    let '(x, a) := Array.shift (items this) in
    (Normal x, {| items := a |}).

Definition isEmpty (this : t) : bool :=
  bool_decide (Array.length (items this) = 0).

Definition size (this : t) : Z := Array.length (items this).

End Queue.

(** ** [Bag.mjs] *)

Module Bag.

Record t : Type := mk { items : list JSValue }.

Definition constructor : t := {| items := [] |}.

Definition add (item : JSValue) : JS t unit :=
  fun this =>
    let '(_, a) := Array.push (items this) item in
    (Normal tt, {| items := a |}).

Definition isEmpty (this : t) : bool :=
  bool_decide (Array.length (items this) = 0).

Definition size (this : t) : Z := Array.length (items this).

End Bag.

(** ** [ListaSimple.mjs]

    [Nodo] objects are allocated in a heap; [#first] and the field [sig]
    hold either [undefined] ([None]) or a reference to a [Nodo].  The
    record [t] is the part of the store a [ListaSimple] instance works
    on: the heap of nodes and its two private fields. *)

Module ListaSimple.

Abbreviation loc := positive.

Record Nodo : Type := mkNodo {
  item : JSValue;
  sig : option loc
}.

Record t : Type := mk {
  heap : gmap loc Nodo;
  first : option loc;
  n : Z
}.

Definition constructor : t := {| heap := ∅; first := None; n := 0 |}.

(** [new Nodo()]: a new object whose two fields are [undefined]. *)
Definition new_Nodo : JS t loc :=
  fun this =>
    let x := fresh (dom (heap this)) in
    (Normal x,
     {| heap := <[x := {| item := JSUndefined; sig := None |}]> (heap this);
        first := first this; n := n this |}).

(** [x.item = v] *)
Definition set_item (x : loc) (v : JSValue) : JS t unit :=
  fun this =>
    match heap this !! x with
    | Some nd =>
        (Normal tt,
         {| heap := <[x := {| item := v; sig := sig nd |}]> (heap this);
            first := first this; n := n this |})
    | None => (Stuck, this)
    end.

(** [x.sig = r] *)
Definition set_sig (x : loc) (r : option loc) : JS t unit :=
  fun this =>
    match heap this !! x with
    | Some nd =>
        (Normal tt,
         {| heap := <[x := {| item := item nd; sig := r |}]> (heap this);
            first := first this; n := n this |})
    | None => (Stuck, this)
    end.

(** [r.item] and [r.sig]; a property read on [undefined] is a TypeError. *)
Definition get_field {A : Type} (field : Nodo -> A) (name : string)
    (r : option loc) : JS t A :=
  match r with
  | None =>
      throw (mkErrorObject TypeError
               ("Cannot read properties of undefined (reading '" ++ name ++ "')"))
  | Some x =>
      fun this =>
        match heap this !! x with
        | Some nd => (Normal (field nd), this)
        | None => (Stuck, this)
        end
  end.

(** [this.#first = r] *)
Definition set_first (r : option loc) : JS t unit :=
  modify (fun this => {| heap := heap this; first := r; n := n this |}).

(** [this.#n++] and [this.#n--] *)
Definition incr_n : JS t unit :=
  modify (fun this => {| heap := heap this; first := first this; n := n this + 1 |}).

Definition decr_n : JS t unit :=
  modify (fun this => {| heap := heap this; first := first this; n := n this - 1 |}).

(** [!r] for a reference: an object is truthy, [undefined] is falsy. *)
Definition not_ref (r : option loc) : bool :=
  match r with
  | None => true
  | Some _ => false
  end.

Definition addHead (it : JSValue) : JS t unit :=
  x ← new_Nodo;
  set_item x it;;
  f ← gets first;
  set_sig x f;;
  set_first (Some x);;
  incr_n.

Definition removeHead : JS t JSValue :=
  f ← gets first;
  if not_ref f then
    e ← new_error "Exception" "Lista vacia";
    throw e
  else
    f1 ← gets first;
    i ← get_field item "item" f1;
    f2 ← gets first;
    s ← get_field sig "sig" f2;
    set_first s;;
    decr_n;;
    mret i.

Definition isEmpty (this : t) : bool := bool_decide (n this = 0).

Definition size (this : t) : Z := n this.

End ListaSimple.

(** ** The operations the containers share

    [Stack], [Queue] and [ListaSimple] offer the same four operations
    under different names.  A client is modelled as a list of calls made
    one after the other on one container. *)

Class LinearContainer (C : Type) : Type := {
  lc_new : C;
  lc_add : JSValue -> JS C unit;
  lc_remove : JS C JSValue;
  lc_isEmpty : C -> bool;
  lc_size : C -> Z
}.

Global Instance Stack_container : LinearContainer Stack.t := {|
  lc_new := Stack.constructor;
  lc_add := Stack.push;
  lc_remove := Stack.pop;
  lc_isEmpty := Stack.isEmpty;
  lc_size := Stack.size
|}.

Global Instance Queue_container : LinearContainer Queue.t := {|
  lc_new := Queue.constructor;
  lc_add := Queue.enqueue;
  lc_remove := Queue.dequeue;
  lc_isEmpty := Queue.isEmpty;
  lc_size := Queue.size
|}.

Global Instance ListaSimple_container : LinearContainer ListaSimple.t := {|
  lc_new := ListaSimple.constructor;
  lc_add := ListaSimple.addHead;
  lc_remove := ListaSimple.removeHead;
  lc_isEmpty := ListaSimple.isEmpty;
  lc_size := ListaSimple.size
|}.

Inductive Op : Type :=
  | OpAdd (item : JSValue)
  | OpRemove
  | OpIsEmpty
  | OpSize.

Definition is_normal {A : Type} (c : Completion A) : bool :=
  match c with
  | Normal _ => true
  | _ => false
  end.

Section Clients.

Context {C : Type} `{LinearContainer C}.

(** One call and the value it evaluates to (a method without [return]
    evaluates to [undefined]). *)
Definition call (o : Op) : JS C JSValue :=
  match o with
  | OpAdd x => lc_add x;; mret JSUndefined
  | OpRemove => lc_remove
  | OpIsEmpty => b ← gets lc_isEmpty; mret (JSBool b)
  | OpSize => z ← gets lc_size; mret (JSNum z)
  end.

(** A client that makes the calls in turn and carries on after a call
    that throws; the container is left as the failed call left it. *)
Fixpoint run (ops : list Op) (s : C) : C :=
  match ops with
  | [] => s
  | o :: rest => run rest (snd (call o s))
  end.

(** A call is successful when it completes normally; a removal,
    moreover, when there is an item to detach and return. *)
Definition successful (o : Op) (s : C) : bool :=
  match o with
  | OpRemove => negb (lc_isEmpty s) && is_normal (fst (lc_remove s))
  | _ => is_normal (fst (call o s))
  end.

(** The container after a sequence of calls that are all successful. *)
Fixpoint run_successful (ops : list Op) (s : C) : option C :=
  match ops with
  | [] => Some s
  | o :: rest =>
      if successful o s then run_successful rest (snd (call o s)) else None
  end.

End Clients.

Fixpoint count_adds (ops : list Op) : Z :=
  match ops with
  | [] => 0
  | OpAdd _ :: rest => 1 + count_adds rest
  | _ :: rest => count_adds rest
  end.

Fixpoint count_removes (ops : list Op) : Z :=
  match ops with
  | [] => 0
  | OpRemove :: rest => 1 + count_removes rest
  | _ :: rest => count_removes rest
  end.

(** No removal is attempted on an empty container: at every point of the
    sequence the removals so far do not outnumber the additions so far
    ([k] items are present at the start). *)
Fixpoint never_underflows (k : Z) (ops : list Op) : bool :=
  match ops with
  | [] => true
  | OpAdd _ :: rest => never_underflows (k + 1) rest
  | OpRemove :: rest => bool_decide (0 < k) && never_underflows (k - 1) rest
  | _ :: rest => never_underflows k rest
  end.

(** What the correctness of a container amounts to, given an invariant
    [lc_inv] of its representation. *)
Class LinearContainerLaws (C : Type) `{LinearContainer C} : Type := {
  lc_inv : C -> Prop;
  lc_inv_new : lc_inv lc_new;
  lc_add_spec : forall x s, lc_inv s ->
    exists s', lc_add x s = (Normal tt, s') /\ lc_inv s' /\
               lc_size s' = lc_size s + 1;
  lc_remove_spec : forall s, lc_inv s -> lc_isEmpty s = false ->
    exists v s', lc_remove s = (Normal v, s') /\ lc_inv s' /\
                 lc_size s' = lc_size s - 1;
  lc_remove_empty : forall s, lc_inv s -> lc_isEmpty s = true ->
    snd (lc_remove s) = s;
  lc_isEmpty_size : forall s, lc_isEmpty s = true <-> lc_size s = 0;
  lc_size_nonneg : forall s, lc_inv s -> 0 <= lc_size s
}.

(** ** The representation of a [ListaSimple] *)

Module ListaRep.
Import ListaSimple.

(** [Chain h r ls]: following [sig] from the reference [r] in the heap
    [h] visits exactly the nodes [ls] and then reaches [undefined]. *)
Inductive Chain (h : gmap loc Nodo) : option loc -> list loc -> Prop :=
  | Chain_end : Chain h None []
  | Chain_step (x : loc) (nd : Nodo) (ls : list loc) :
      h !! x = Some nd ->
      Chain h (sig nd) ls ->
      Chain h (Some x) (x :: ls).

(** The same walk as a function; it gives up when [fuel] nodes have been
    visited without reaching the end. *)
Fixpoint walk (fuel : nat) (h : gmap loc Nodo) (r : option loc)
  : option (list loc) :=
  match r with
  | None => Some []
  | Some x =>
      match fuel with
      | O => None
      | S fuel' =>
          match h !! x with
          | None => None
          | Some nd => cons x <$> walk fuel' h (sig nd)
          end
      end
  end.

(** The nodes reachable from [#first].  A chain that ends visits no node
    twice, so one more step than the heap has objects is always enough;
    [None] means the chain does not end or leaves the heap. *)
Definition reachable (this : t) : option (list loc) :=
  walk (S (base.size (heap this))) (heap this) (first this).

Definition reachable_count (this : t) : option Z :=
  (fun ls => Z.of_nat (List.length ls)) <$> reachable this.

(** The representation invariant. *)
Definition wf (this : t) : Prop :=
  exists ls, Chain (heap this) (first this) ls /\
             n this = Z.of_nat (List.length ls).

End ListaRep.

(** ** The three variants under one name *)

Inductive Variant : Type :=
  | VStack
  | VQueue
  | VListaSimple.

Definition container (v : Variant) : Type :=
  match v with
  | VStack => Stack.t
  | VQueue => Queue.t
  | VListaSimple => ListaSimple.t
  end.

Global Instance variant_container (v : Variant) : LinearContainer (container v) :=
  match v with
  | VStack => Stack_container
  | VQueue => Queue_container
  | VListaSimple => ListaSimple_container
  end.

(** ** Test clients

    The clients behind the order laws and the scenarios of the
    specification; each returns what it observed, in order. *)

(** [s.push(a); s.push(b); s.push(c); [s.pop(), s.pop(), s.pop()]] *)
Definition lifo_client (a b c : JSValue) : JS Stack.t (list JSValue) :=
  Stack.push a;;
  Stack.push b;;
  Stack.push c;;
  x ← Stack.pop;
  y ← Stack.pop;
  z ← Stack.pop;
  mret [x; y; z].

(** Push 1, 2, "Hola", "Mundo"; read the size; pop; read the size; pop
    three times; read the size and [isEmpty()]. *)
Definition stack_scenario : JS Stack.t (list JSValue) :=
  Stack.push (JSNum 1);;
  Stack.push (JSNum 2);;
  Stack.push (JSStr "Hola");;
  Stack.push (JSStr "Mundo");;
  n4 ← gets Stack.size;
  top ← Stack.pop;
  n3 ← gets Stack.size;
  Stack.pop;;
  Stack.pop;;
  Stack.pop;;
  n0 ← gets Stack.size;
  e ← gets Stack.isEmpty;
  mret [JSNum n4; top; JSNum n3; JSNum n0; JSBool e].

(** [q.enqueue(a); q.enqueue(b); q.enqueue(c);
    [q.dequeue(), q.dequeue(), q.dequeue()]] *)
Definition fifo_client (a b c : JSValue) : JS Queue.t (list JSValue) :=
  Queue.enqueue a;;
  Queue.enqueue b;;
  Queue.enqueue c;;
  x ← Queue.dequeue;
  y ← Queue.dequeue;
  z ← Queue.dequeue;
  mret [x; y; z].

(** [k] calls of [dequeue()], collecting the results. *)
Fixpoint dequeue_times (k : nat) : JS Queue.t (list JSValue) :=
  match k with
  | O => mret []
  | S k' => x ← Queue.dequeue; xs ← dequeue_times k'; mret (x :: xs)
  end.

(** Enqueue 1 and "Hola"; read the size; dequeue twice; read
    [isEmpty()]. *)
Definition queue_scenario : JS Queue.t (list JSValue) :=
  Queue.enqueue (JSNum 1);;
  Queue.enqueue (JSStr "Hola");;
  n2 ← gets Queue.size;
  x ← Queue.dequeue;
  y ← Queue.dequeue;
  e ← gets Queue.isEmpty;
  mret [JSNum n2; x; y; JSBool e].

(** ** Longer clients *)

Section MoreClients.

Context {C : Type} `{LinearContainer C}.

(** Add the items of [xs], first to last. *)
Fixpoint add_all (xs : list JSValue) : JS C unit :=
  match xs with
  | [] => mret tt
  | x :: rest => lc_add x;; add_all rest
  end.

(** Call the remove operation [k] times, collecting the results. *)
Fixpoint remove_times (k : nat) : JS C (list JSValue) :=
  match k with
  | O => mret []
  | S k' => x ← lc_remove; xs ← remove_times k'; mret (x :: xs)
  end.

(** How each call of a client completes, in order (the client of [run],
    which carries on after a call that throws). *)
Fixpoint trace (ops : list Op) (s : C) : list (Completion JSValue) :=
  match ops with
  | [] => []
  | o :: rest => fst (call o s) :: trace rest (snd (call o s))
  end.

(** How the removals of a client complete, in order. *)
Fixpoint removals (ops : list Op) (s : C) : list (Completion JSValue) :=
  match ops with
  | [] => []
  | OpRemove :: rest => fst (lc_remove s) :: removals rest (snd (lc_remove s))
  | o :: rest => removals rest (snd (call o s))
  end.

End MoreClients.

(** The items a client adds, in order. *)
Fixpoint added (ops : list Op) : list JSValue :=
  match ops with
  | [] => []
  | OpAdd x :: rest => x :: added rest
  | _ :: rest => added rest
  end.

(** A counter that goes up with every addition and down with every
    removal, except that it stays at 0 when it is 0. *)
Fixpoint saturating_size (k : Z) (ops : list Op) : Z :=
  match ops with
  | [] => k
  | OpAdd _ :: rest => saturating_size (k + 1) rest
  | OpRemove :: rest => saturating_size (Z.max 0 (k - 1)) rest
  | _ :: rest => saturating_size k rest
  end.

(** [for (x of xs) bag.add(x)] *)
Fixpoint Bag_add_all (xs : list JSValue) : JS Bag.t unit :=
  match xs with
  | [] => mret tt
  | x :: rest => Bag.add x;; Bag_add_all rest
  end.

(** ** The items a [ListaSimple] holds *)

Module ListaContents.
Import ListaSimple.

(** Follow [sig] from [r] and collect the [item] of every node; gives up
    after [fuel] nodes. *)
Fixpoint walk_items (fuel : nat) (h : gmap loc Nodo) (r : option loc)
  : option (list JSValue) :=
  match r with
  | None => Some []
  | Some x =>
      match fuel with
      | O => None
      | S fuel' =>
          match h !! x with
          | None => None
          | Some nd => cons (item nd) <$> walk_items fuel' h (sig nd)
          end
      end
  end.

(** The items of the list from the head on; [None] when the chain does
    not end or leaves the heap. *)
Definition contents (this : t) : option (list JSValue) :=
  walk_items (S (base.size (heap this))) (heap this) (first this).

(** [Holds h r xs]: the chain that starts at [r] ends and its nodes hold
    the items [xs], in order. *)
Inductive Holds (h : gmap loc Nodo) : option loc -> list JSValue -> Prop :=
  | Holds_end : Holds h None []
  | Holds_step (x : loc) (nd : Nodo) (xs : list JSValue) :
      h !! x = Some nd ->
      Holds h (sig nd) xs ->
      Holds h (Some x) (item nd :: xs).

(** The list [this] represents the sequence [xs]. *)
Definition represents (this : t) (xs : list JSValue) : Prop :=
  Holds (heap this) (first this) xs /\ n this = Z.of_nat (List.length xs).

End ListaContents.

(** ** Numbers as strings, padding, comparison of strings

    The date classes hold integer Numbers.  [""+n] for an integer [n]
    (below 10^21 in absolute value, where JavaScript switches to the
    exponent notation) is its decimal numeral, with a minus sign when
    negative: stdpp's [pretty]. *)

Definition Number_toString (z : Z) : string := pretty z.

(** The first [k] characters of [rest] followed by as many repetitions
    of [fillString] as needed. *)
Fixpoint fill_to (k : nat) (fillString rest : string) : string :=
  match k with
  | O => EmptyString
  | S k' =>
      match rest with
      | String c r => String c (fill_to k' fillString r)
      | EmptyString =>
          match fillString with
          | String c r => String c (fill_to k' fillString r)
          | EmptyString => EmptyString
          end
      end
  end.

(** [s.padStart(maxLength, fillString)] *)
Definition padStart (maxLength : nat) (fillString s : string) : string :=
  if (maxLength <=? String.length s)%nat then s
  else fill_to (maxLength - String.length s) fillString fillString +:+ s.

(** The last [w] decimal digits of [x], written in front of [s]. *)
Fixpoint digits_go (w : nat) (x : N) (s : string) : string :=
  match w with
  | O => s
  | S w' => digits_go w' (x `div` 10)%N (String (pretty_N_char (x `mod` 10)%N) s)
  end.

(** ** The console, and relational operators on objects

    [console.log] appends a line to the console.  A method of the date
    classes is a computation on the console that returns a primitive
    value. *)

Definition console_log (line : string) : JS (list string) unit :=
  modify (fun out => out ++ [line]).

Section Relational.

Context {T : Type}.

(** The methods a class defines, by name, in the order of the source. *)
Definition MethodTable : Type := list (string * (T -> JS (list string) JSValue)).

Fixpoint get_method (table : MethodTable) (name : string)
  : option (T -> JS (list string) JSValue) :=
  match table with
  | [] => None
  | (k, m) :: rest => if bool_decide (k = name) then Some m else get_method rest name
  end.

(** [ToPrimitive] with hint number, as the relational operators apply it
    to an object: [valueOf] is tried first and [toString] second.  A
    class that defines no [valueOf] inherits the one of
    [Object.prototype], which returns the object itself, not a
    primitive, so the conversion goes on to [toString]; the inherited
    [toString] returns "[object Object]". *)
Definition ToPrimitive (table : MethodTable) (this : T) : JS (list string) JSValue :=
  match get_method table "valueOf" with
  | Some m => m this
  | None =>
      match get_method table "toString" with
      | Some m => m this
      | None => mret (JSStr "[object Object]")
      end
  end.

(** [px < py] on primitives: two strings are compared character by
    character, two numbers by value.  [None]: the conversion of other
    operands to Number is not modelled. *)
Definition less_than_primitive (px py : JSValue) : option bool :=
  match px, py with
  | JSStr a, JSStr b => Some (String.ltb a b)
  | JSNum a, JSNum b => Some (a <? b)
  | _, _ => None
  end.

(** [a < b]: [a] is converted first, the result is [prim a < prim b]. *)
Definition less_than (table : MethodTable) (a b : T) : JS (list string) (option bool) :=
  pa ← ToPrimitive table a;
  pb ← ToPrimitive table b;
  mret (less_than_primitive pa pb).

(** [a > b]: [a] is converted first, the result is [prim b < prim a]. *)
Definition greater_than (table : MethodTable) (a b : T) : JS (list string) (option bool) :=
  pa ← ToPrimitive table a;
  pb ← ToPrimitive table b;
  mret (less_than_primitive pb pa).

End Relational.

(** ** [FechaComparable.mjs] *)

Module FechaComparable.

Record t : Type := mk { año : Z; mes : Z; dia : Z }.

Definition constructor (año mes dia : Z) : t :=
  {| año := año; mes := mes; dia := dia |}.

Definition diaDelAño (this : t) : JS (list string) JSValue := mret JSUndefined.

Definition esBiciesto (this : t) : JS (list string) JSValue := mret JSUndefined.

Definition toString (this : t) : JS (list string) JSValue :=
  console_log "zz";;
  mret (JSStr ((((("" +:+ Number_toString (año this)) +:+ "-")
                   +:+ Number_toString (mes this)) +:+ "-")
                   +:+ Number_toString (dia this))).

(** The sum is written over the integers.  A Number is a double: the
    result of [+] or [*] on integers is the exact integer only while it
    stays within -2^53..2^53, and is rounded beyond; [exact] below says
    that every operand and every intermediate result of the expression
    stays within that interval, and the properties of [valoeOf] are
    stated for such dates only. *)
Definition valoeOf (this : t) : JS (list string) JSValue :=
  console_log "xx";;
  mret (JSNum (dia this + mes this * 31 + año this * 366)).

(** The integers a double holds exactly, whatever the operation that
    produced them. *)
Definition safe (z : Z) : Prop := - 2 ^ 53 <= z <= 2 ^ 53.

(** The fields and every intermediate result of
    [dia + mes*31 + año*366] (evaluated as [(dia + mes*31) + año*366])
    are integers a double holds exactly. *)
Definition exact (this : t) : Prop :=
  safe (año this) /\ safe (mes this) /\ safe (dia this) /\
  safe (mes this * 31) /\
  safe (dia this + mes this * 31) /\
  safe (año this * 366) /\
  safe (dia this + mes this * 31 + año this * 366).

Definition methods : @MethodTable t :=
  [ ("diaDelAño", diaDelAño); ("esBiciesto", esBiciesto);
    ("toString", toString); ("valoeOf", valoeOf) ]%string.

End FechaComparable.

(** ** [ComparableDate.mjs] *)

Module ComparableDate.

Record t : Type := mk { year : Z; month : Z; date : Z }.

Definition constructor (year month date : Z) : t :=
  {| year := year; month := month; date := date |}.

Definition toString (this : t) : JS (list string) JSValue :=
  mret (JSStr ((((padStart 4 "0" ("" +:+ Number_toString (year this)) +:+ "-")
                   +:+ padStart 2 "0" ("" +:+ Number_toString (month this))) +:+ "-")
                   +:+ padStart 2 "0" ("" +:+ Number_toString (date this)))).

(** Written over the integers, as [FechaComparable.valoeOf]; no
    property below depends on its value. *)
Definition valoeOf (this : t) : JS (list string) JSValue :=
  console_log "valueOf invoked";;
  mret (JSNum (date this + month this * 31 + year this * 366)).

Definition methods : @MethodTable t :=
  [ ("toString", toString); ("valoeOf", valoeOf) ]%string.

(** Chronological order: by year, then month, then day. *)
Definition earlier (a b : t) : bool :=
  match year a ?= year b with
  | Lt => true
  | Gt => false
  | Eq =>
      match month a ?= month b with
      | Lt => true
      | Gt => false
      | Eq => date a <? date b
      end
  end.

(** The dates whose fields fit the widths [toString] pads to. *)
Definition in_range (d : t) : Prop :=
  0 <= year d <= 9999 /\ 0 <= month d <= 99 /\ 0 <= date d <= 99.

End ComparableDate.

(** * Properties *)

(** ** Arrays *)

Lemma Array_length_nil : Array.length [] = 0.
Proof. reflexivity. Qed.

Lemma Array_length_nonneg (a : list JSValue) : 0 <= Array.length a.
Proof. unfold Array.length. lia. Qed.

Lemma Array_length_zero (a : list JSValue) : Array.length a = 0 <-> a = [].
Proof.
  unfold Array.length. split.
  - destruct a; [done | simpl; lia].
  - by intros ->.
Qed.

Lemma Array_push_eq (a : list JSValue) (x : JSValue) :
  Array.push a x = (Array.length a + 1, a ++ [x]).
Proof. reflexivity. Qed.

Lemma Array_length_push (a : list JSValue) (x : JSValue) :
  Array.length (a ++ [x]) = Array.length a + 1.
Proof. unfold Array.length. rewrite length_app. simpl. lia. Qed.

Lemma Array_pop_nil : Array.pop [] = (JSUndefined, []).
Proof. reflexivity. Qed.

Lemma Array_pop_snoc (a : list JSValue) (x : JSValue) :
  Array.pop (a ++ [x]) = (x, a).
Proof.
  unfold Array.pop. rewrite length_app. simpl. rewrite Nat.add_1_r.
  rewrite lookup_app_r by lia. rewrite Nat.sub_diag. simpl.
  by rewrite take_app_length.
Qed.

Lemma Array_pop_length (a : list JSValue) :
  a <> [] -> Array.length (Array.pop a).2 = Array.length a - 1.
Proof.
  intros Ha. destruct a as [| x a' _] using rev_ind; [done |].
  rewrite Array_pop_snoc, Array_length_push. simpl. lia.
Qed.

Lemma Array_shift_length (a : list JSValue) :
  a <> [] -> Array.length (Array.shift a).2 = Array.length a - 1.
Proof.
  destruct a as [| x a]; [done |]. intros _. unfold Array.length. simpl. lia.
Qed.

(** ** Stack and Queue: what each method does to [items] *)

Lemma Stack_push_eq (x : JSValue) (s : Stack.t) :
  Stack.push x s = (Normal tt, Stack.mk (Stack.items s ++ [x])).
Proof. reflexivity. Qed.

Lemma Stack_pop_empty :
  Stack.pop (Stack.mk []) = (Normal JSUndefined, Stack.mk []).
Proof. reflexivity. Qed.

Lemma Stack_pop_top (a : list JSValue) (x : JSValue) :
  Stack.pop (Stack.mk (a ++ [x])) = (Normal x, Stack.mk a).
Proof. unfold Stack.pop. simpl. by rewrite Array_pop_snoc. Qed.

Lemma Stack_size_zero (s : Stack.t) : Stack.size s = 0 <-> s = Stack.constructor.
Proof.
  destruct s as [a]. unfold Stack.size, Stack.constructor. simpl.
  rewrite Array_length_zero. split; [by intros -> | by intros [= ->]].
Qed.

Lemma Queue_enqueue_eq (x : JSValue) (q : Queue.t) :
  Queue.enqueue x q = (Normal tt, Queue.mk (Queue.items q ++ [x])).
Proof. reflexivity. Qed.

Lemma Queue_dequeue_empty :
  Queue.dequeue (Queue.mk []) = (Normal JSUndefined, Queue.mk []).
Proof. reflexivity. Qed.

Lemma Queue_dequeue_head (a : list JSValue) (x : JSValue) :
  Queue.dequeue (Queue.mk (x :: a)) = (Normal x, Queue.mk a).
Proof. reflexivity. Qed.

Lemma Queue_size_zero (q : Queue.t) : Queue.size q = 0 <-> q = Queue.constructor.
Proof.
  destruct q as [a]. unfold Queue.size, Queue.constructor. simpl.
  rewrite Array_length_zero. split; [by intros -> | by intros [= ->]].
Qed.

Lemma Bag_add_eq (x : JSValue) (b : Bag.t) :
  Bag.add x b = (Normal tt, Bag.mk (Bag.items b ++ [x])).
Proof. reflexivity. Qed.

Lemma Stack_laws : LinearContainerLaws Stack.t.
Proof.
  refine {| lc_inv := fun _ => True |}; simpl.
  - exact I.
  - intros x s _. eexists. split; [apply Stack_push_eq |].
    split; [exact I |]. apply Array_length_push.
  - intros [a] _ Hne. unfold Stack.isEmpty in Hne. simpl in Hne.
    apply bool_decide_eq_false in Hne. rewrite Array_length_zero in Hne.
    destruct a as [| x a' _] using rev_ind; [done |].
    exists x, (Stack.mk a'). rewrite Stack_pop_top.
    split; [done |]. split; [exact I |].
    unfold Stack.size. simpl. rewrite Array_length_push. lia.
  - intros [a] _ He. unfold Stack.isEmpty in He. simpl in He.
    apply bool_decide_eq_true in He. apply Array_length_zero in He.
    by subst a.
  - intros s. unfold Stack.isEmpty, Stack.size. apply bool_decide_eq_true.
  - intros s _. apply Array_length_nonneg.
Qed.

Lemma Queue_laws : LinearContainerLaws Queue.t.
Proof.
  refine {| lc_inv := fun _ => True |}; simpl.
  - exact I.
  - intros x s _. eexists. split; [apply Queue_enqueue_eq |].
    split; [exact I |]. apply Array_length_push.
  - intros [a] _ Hne. unfold Queue.isEmpty in Hne. simpl in Hne.
    apply bool_decide_eq_false in Hne. rewrite Array_length_zero in Hne.
    destruct a as [| x a']; [done |].
    exists x, (Queue.mk a'). rewrite Queue_dequeue_head.
    split; [done |]. split; [exact I |].
    unfold Queue.size, Array.length. simpl. lia.
  - intros [a] _ He. unfold Queue.isEmpty in He. simpl in He.
    apply bool_decide_eq_true in He. apply Array_length_zero in He.
    by subst a.
  - intros s. unfold Queue.isEmpty, Queue.size. apply bool_decide_eq_true.
  - intros s _. apply Array_length_nonneg.
Qed.

Lemma never_underflows_cons (k : Z) (o : Op) (ops : list Op) :
  never_underflows k (o :: ops) =
    never_underflows k [o] &&
    never_underflows (k + count_adds [o] - count_removes [o]) ops.
Proof.
  destruct o; simpl.
  - by replace (k + (1 + 0) - 0) with (k + 1) by lia.
  - rewrite andb_true_r. by replace (k + 0 - (1 + 0)) with (k - 1) by lia.
  - by replace (k + 0 - 0) with k by lia.
  - by replace (k + 0 - 0) with k by lia.
Qed.

(** ** Clients of any lawful container *)

Section ClientLemmas.

Context {C : Type} `{LinearContainer C} (L : LinearContainerLaws C).

Lemma call_inv (o : Op) (s : C) : lc_inv s -> lc_inv (snd (call o s)).
Proof.
  intros Hs. destruct o as [x | | |]; simpl; try done.
  - destruct (lc_add_spec x s Hs) as (s' & Hadd & Hs' & _).
    unfold mbind, JS_bind, bind. by rewrite Hadd.
  - destruct (lc_isEmpty s) eqn:He.
    + by rewrite lc_remove_empty.
    + destruct (lc_remove_spec s Hs He) as (v & s' & Hrm & Hs' & _).
      by rewrite Hrm.
Qed.

Lemma run_inv (ops : list Op) (s : C) : lc_inv s -> lc_inv (run ops s).
Proof.
  revert s. induction ops as [| o ops IH]; intros s Hs; simpl; [done |].
  apply IH. by apply call_inv.
Qed.

Lemma size_zero_iff_isEmpty (s : C) : lc_size s = 0 <-> lc_isEmpty s = true.
Proof. symmetry. apply lc_isEmpty_size. Qed.

Lemma successful_call (o : Op) (s : C) :
  lc_inv s -> successful o s = true ->
  lc_inv (snd (call o s)) /\
  lc_size (snd (call o s)) =
    lc_size s + count_adds [o] - count_removes [o].
Proof.
  intros Hs Hok. split; [by apply call_inv |].
  destruct o as [x | | |]; simpl in *.
  - destruct (lc_add_spec x s Hs) as (s' & Hadd & _ & Hsz).
    unfold mbind, JS_bind, bind. rewrite Hadd. simpl. lia.
  - apply andb_true_iff in Hok as [He _]. apply negb_true_iff in He.
    destruct (lc_remove_spec s Hs He) as (v & s' & Hrm & _ & Hsz).
    rewrite Hrm. simpl. lia.
  - lia.
  - lia.
Qed.

Lemma run_successful_size (ops : list Op) (s s' : C) :
  lc_inv s -> run_successful ops s = Some s' ->
  lc_inv s' /\ lc_size s' = lc_size s + count_adds ops - count_removes ops.
Proof.
  revert s. induction ops as [| o ops IH]; intros s Hs Hrun; simpl in *.
  - injection Hrun as <-. split; [done | lia].
  - destruct (successful o s) eqn:Hok; [| done].
    destruct (successful_call o s Hs Hok) as [Hs1 Hsz1].
    destruct (IH _ Hs1 Hrun) as [Hs' Hsz']. split; [done |].
    rewrite Hsz', Hsz1. destruct o; simpl; lia.
Qed.

Lemma successful_iff (o : Op) (s : C) :
  lc_inv s ->
  successful o s = never_underflows (lc_size s) [o].
Proof.
  intros Hs. destruct o as [x | | |]; simpl; try done.
  - destruct (lc_add_spec x s Hs) as (s' & Hadd & _ & _).
    unfold mbind, JS_bind, bind. by rewrite Hadd.
  - rewrite andb_true_r. pose proof (lc_size_nonneg s Hs) as Hnn.
    destruct (lc_isEmpty s) eqn:He.
    + apply lc_isEmpty_size in He. simpl. symmetry.
      apply bool_decide_eq_false. lia.
    + destruct (lc_remove_spec s Hs He) as (v & s' & Hrm & _ & _).
      rewrite Hrm. simpl. symmetry. apply bool_decide_eq_true.
      assert (lc_size s <> 0); [| lia].
      intros Hz. apply lc_isEmpty_size in Hz. congruence.
Qed.

Lemma run_successful_total (ops : list Op) (s : C) :
  lc_inv s ->
  never_underflows (lc_size s) ops = true <-> is_Some (run_successful ops s).
Proof.
  revert s. induction ops as [| o ops IH]; intros s Hs.
  - simpl. split; [by eexists | done].
  - rewrite never_underflows_cons, <- (successful_iff o s Hs).
    cbn [run_successful].
    destruct (successful o s) eqn:Hok; simpl.
    + destruct (successful_call o s Hs Hok) as [Hs1 Hsz1].
      rewrite <- (IH _ Hs1), Hsz1. done.
    + split; [done | by intros [? ?]].
Qed.

End ClientLemmas.

(** ** ListaSimple: what each method does to the store *)

Section ListaSimpleMethods.
Import ListaSimple.

Lemma addHead_eq (it : JSValue) (s : t) :
  addHead it s =
    (Normal tt,
     {| heap := <[fresh (dom (heap s)) := mkNodo it (first s)]> (heap s);
        first := Some (fresh (dom (heap s)));
        n := n s + 1 |}).
Proof.
  unfold addHead, mbind, JS_bind, bind, new_Nodo, set_item, set_sig,
    set_first, incr_n, gets, modify.
  simpl. rewrite !lookup_insert_eq. simpl. rewrite !lookup_insert_eq. simpl.
  by rewrite !insert_insert_eq.
Qed.

Lemma removeHead_undefined (s : t) :
  first s = None ->
  removeHead s =
    (Throw (mkErrorObject ReferenceError "Exception is not defined"), s).
Proof.
  intros Hf. unfold removeHead, mbind, JS_bind, bind, gets. simpl.
  rewrite Hf. reflexivity.
Qed.

Lemma removeHead_node (s : t) (x : loc) (nd : Nodo) :
  first s = Some x -> heap s !! x = Some nd ->
  removeHead s =
    (Normal (item nd), {| heap := heap s; first := sig nd; n := n s - 1 |}).
Proof.
  destruct s as [h f k]. simpl. intros -> Hx.
  unfold removeHead, mbind, JS_bind, bind, gets, get_field, set_first,
    decr_n, modify, mret, JS_ret, ret.
  simpl. rewrite Hx. simpl. by rewrite Hx.
Qed.

Lemma removeHead_dangling (s : t) (x : loc) :
  first s = Some x -> heap s !! x = None -> removeHead s = (Stuck, s).
Proof.
  destruct s as [h f k]. simpl. intros -> Hx.
  unfold removeHead, mbind, JS_bind, bind, gets, get_field. simpl.
  by rewrite Hx.
Qed.

End ListaSimpleMethods.

(** ** ListaSimple: the chain of nodes *)

Section ChainLemmas.
Import ListaSimple ListaRep.

Lemma Chain_functional (h : gmap loc Nodo) (r : option loc) (l1 l2 : list loc) :
  Chain h r l1 -> Chain h r l2 -> l1 = l2.
Proof.
  intros H1. revert l2. induction H1 as [| x nd ls Hx _ IH]; intros l2 H2.
  - by inversion H2.
  - inversion H2 as [| x' nd' ls' Hx' Hc']; subst.
    rewrite Hx in Hx'. injection Hx' as <-. f_equal. by apply IH.
Qed.

Lemma Chain_in_heap (h : gmap loc Nodo) (r : option loc) (ls : list loc) :
  Chain h r ls -> forall y, y ∈ ls -> is_Some (h !! y).
Proof.
  induction 1 as [| x nd ls Hx _ IH]; intros y Hy.
  - by apply elem_of_nil in Hy.
  - apply elem_of_cons in Hy as [-> | Hy]; [by eexists | by apply IH].
Qed.

Lemma Chain_from (h : gmap loc Nodo) (r : option loc) (ls : list loc) :
  Chain h r ls -> forall y, y ∈ ls ->
  exists l1 l2, ls = l1 ++ y :: l2 /\ Chain h (Some y) (y :: l2).
Proof.
  induction 1 as [| x nd ls Hx Hc IH]; intros y Hy.
  - by apply elem_of_nil in Hy.
  - destruct (decide (y = x)) as [-> | Hne].
    + exists [], ls. split; [done |]. by econstructor.
    + apply elem_of_cons in Hy as [-> | Hy]; [done |].
      destruct (IH y Hy) as (l1 & l2 & -> & Hc2).
      by exists (x :: l1), l2.
Qed.

(** A chain that ends visits no node twice. *)
Lemma Chain_NoDup (h : gmap loc Nodo) (r : option loc) (ls : list loc) :
  Chain h r ls -> NoDup ls.
Proof.
  induction 1 as [| x nd ls Hx Hc IH]; [by apply NoDup_nil |].
  apply NoDup_cons. split; [| done].
  intros Hin. destruct (Chain_from _ _ _ Hc x Hin) as (l1 & l2 & Heq & Hc2).
  assert (Hc1 : Chain h (Some x) (x :: ls)) by (by econstructor).
  pose proof (Chain_functional _ _ _ _ Hc1 Hc2) as Hsame.
  injection Hsame as Hsame. rewrite <- Hsame in Heq.
  apply (f_equal List.length) in Heq. rewrite length_app in Heq.
  simpl in Heq. lia.
Qed.

Lemma Chain_length_le (h : gmap loc Nodo) (r : option loc) (ls : list loc) :
  Chain h r ls -> (List.length ls <= base.size h)%nat.
Proof.
  intros Hc. rewrite <- (size_list_to_set (C := gset loc) ls)
    by (by eapply Chain_NoDup).
  rewrite <- (size_dom (D := gset loc) h). apply subseteq_size.
  intros y Hy. apply elem_of_list_to_set in Hy. apply elem_of_dom.
  by eapply Chain_in_heap.
Qed.

Lemma Chain_insert (h : gmap loc Nodo) (r : option loc) (ls : list loc)
    (x : loc) (nd : Nodo) :
  Chain h r ls -> h !! x = None -> Chain (<[x := nd]> h) r ls.
Proof.
  intros Hc Hx. induction Hc as [| y ndy ls Hy _ IH]; [constructor |].
  econstructor; [| exact IH].
  rewrite lookup_insert_ne; [done |]. intros ->. congruence.
Qed.

Lemma walk_Chain (fuel : nat) (h : gmap loc Nodo) (r : option loc)
    (ls : list loc) :
  walk fuel h r = Some ls -> Chain h r ls.
Proof.
  revert r ls. induction fuel as [| fuel IH]; intros [x |] ls Hw;
    simpl in Hw; try done.
  - injection Hw as <-. constructor.
  - destruct (h !! x) as [nd |] eqn:Hx; [| done].
    apply fmap_Some in Hw as (ls' & Hw & ->).
    econstructor; [exact Hx |]. by apply IH.
  - injection Hw as <-. constructor.
Qed.

Lemma Chain_walk (fuel : nat) (h : gmap loc Nodo) (r : option loc)
    (ls : list loc) :
  Chain h r ls -> (List.length ls <= fuel)%nat -> walk fuel h r = Some ls.
Proof.
  intros Hc. revert fuel. induction Hc as [| x nd ls Hx _ IH]; intros fuel Hf.
  - by destruct fuel.
  - destruct fuel as [| fuel]; simpl in *; [lia |].
    rewrite Hx, IH by lia. done.
Qed.

(** [reachable] computes exactly the chain that starts at [#first]. *)
Lemma reachable_Chain (s : t) (ls : list loc) :
  reachable s = Some ls <-> Chain (heap s) (first s) ls.
Proof.
  unfold reachable. split; [apply walk_Chain |].
  intros Hc. apply Chain_walk; [done |].
  pose proof (Chain_length_le _ _ _ Hc). lia.
Qed.

End ChainLemmas.

(** ** ListaSimple: the representation invariant *)

Section ListaSimpleInvariant.
Import ListaSimple ListaRep.

Lemma wf_constructor : wf constructor.
Proof. exists []. split; [constructor | reflexivity]. Qed.

Lemma wf_first (s : t) : wf s -> (n s = 0 <-> first s = None).
Proof.
  intros (ls & Hc & Hn). split.
  - intros Hz. rewrite Hz in Hn. destruct ls; [| simpl in Hn; lia].
    by inversion Hc.
  - intros Hf. rewrite Hf in Hc. inversion Hc; subst. by rewrite Hn.
Qed.

Lemma wf_reachable_count (s : t) : wf s -> reachable_count s = Some (n s).
Proof.
  intros (ls & Hc & Hn). unfold reachable_count.
  apply reachable_Chain in Hc. rewrite Hc. simpl. by rewrite Hn.
Qed.

Lemma wf_addHead (it : JSValue) (s : t) : wf s -> wf (snd (addHead it s)).
Proof.
  intros (ls & Hc & Hn). rewrite addHead_eq. simpl.
  pose proof (is_fresh (dom (heap s))) as Hfresh.
  apply not_elem_of_dom in Hfresh.
  exists (fresh (dom (heap s)) :: ls). split.
  - econstructor; [apply lookup_insert_eq |]. simpl.
    by apply Chain_insert.
  - cbn [n List.length]. lia.
Qed.

Lemma wf_removeHead (s : t) : wf s -> wf (snd (removeHead s)).
Proof.
  intros (ls & Hc & Hn).
  inversion Hc as [Hf | x nd ls' Hx Hc' Hf]; subst; symmetry in Hf.
  - rewrite removeHead_undefined by done. simpl. exists []. rewrite Hf. split; [constructor | done].
  - rewrite (removeHead_node s x nd) by done. simpl.
    exists ls'. split; [done |]. cbn [n List.length] in *. lia.
Qed.

Lemma removeHead_nonempty (s : t) :
  wf s -> isEmpty s = false ->
  exists v s', removeHead s = (Normal v, s') /\ wf s' /\ size s' = size s - 1.
Proof.
  intros Hwf He. pose proof (wf_removeHead s Hwf) as Hwf'.
  destruct Hwf as (ls & Hc & Hn).
  unfold isEmpty in He. apply bool_decide_eq_false in He.
  inversion Hc as [Hf | x nd ls' Hx Hc' Hf]; subst; symmetry in Hf.
  - simpl in Hn. lia.
  - rewrite (removeHead_node s x nd) in * by done.
    eexists _, _. split; [done |]. split; [done |].
    unfold size. simpl. lia.
Qed.

Lemma removeHead_empty (s : t) :
  wf s -> isEmpty s = true ->
  removeHead s =
    (Throw (mkErrorObject ReferenceError "Exception is not defined"), s).
Proof.
  intros Hwf He. unfold isEmpty in He. apply bool_decide_eq_true in He.
  apply removeHead_undefined. by apply wf_first.
Qed.

Lemma ListaSimple_laws : LinearContainerLaws ListaSimple.t.
Proof.
  refine {| lc_inv := wf |}; simpl.
  - apply wf_constructor.
  - intros x s Hwf. pose proof (wf_addHead x s Hwf) as Hwf'.
    rewrite addHead_eq in *. by eexists.
  - apply removeHead_nonempty.
  - intros s Hwf He. by rewrite removeHead_empty.
  - intros s. unfold isEmpty, size. apply bool_decide_eq_true.
  - intros s (ls & _ & Hn). unfold size. lia.
Qed.

End ListaSimpleInvariant.

Lemma variant_laws (v : Variant) : LinearContainerLaws (container v).
Proof.
  destruct v; [apply Stack_laws | apply Queue_laws | apply ListaSimple_laws].
Defined.

(** Every state a client can bring a [ListaSimple] to satisfies the
    representation invariant. *)
Lemma ListaSimple_run_wf (ops : list Op) :
  ListaRep.wf (run ops ListaSimple.constructor).
Proof.
  assert (Hgen : forall s, ListaRep.wf s -> ListaRep.wf (run ops s)).
  { induction ops as [| o ops IH]; intros s Hs; simpl; [done |].
    apply IH. destruct o as [x | | |]; simpl; try done.
    - pose proof (wf_addHead x s Hs) as Hwf'.
      unfold mbind, JS_bind, bind. rewrite addHead_eq in *. exact Hwf'.
    - by apply wf_removeHead. }
  apply Hgen, wf_constructor.
Qed.

(** No call on a [ListaSimple] that a client can reach reads through a
    dangling reference: [removeHead] either throws (empty list) or
    returns the item of the first node. *)
Lemma ListaSimple_never_stuck (ops : list Op) (o : Op) :
  fst (call o (run ops ListaSimple.constructor)) <> Stuck.
Proof.
  pose proof (ListaSimple_run_wf ops) as Hwf.
  destruct o as [x | | |]; simpl; try done.
  - unfold mbind, JS_bind, bind. by rewrite addHead_eq.
  - destruct (ListaSimple.isEmpty (run ops ListaSimple.constructor)) eqn:He.
    + by rewrite removeHead_empty.
    + destruct (removeHead_nonempty _ Hwf He) as (v & s' & Hrm & _).
      by rewrite Hrm.
Qed.

(** ** Adding never fails *)

(** No add operation inspects its argument: whatever the item, [null]
    and [undefined] included, the call completes normally and the size
    grows by one. *)
Lemma add_succeeds (x : JSValue) :
  (forall s, fst (Stack.push x s) = Normal tt /\
             Stack.size (snd (Stack.push x s)) = Stack.size s + 1) /\
  (forall q, fst (Queue.enqueue x q) = Normal tt /\
             Queue.size (snd (Queue.enqueue x q)) = Queue.size q + 1) /\
  (forall b, fst (Bag.add x b) = Normal tt /\
             Bag.size (snd (Bag.add x b)) = Bag.size b + 1) /\
  (forall l, fst (ListaSimple.addHead x l) = Normal tt /\
             ListaSimple.size (snd (ListaSimple.addHead x l)) =
               ListaSimple.size l + 1).
Proof.
  repeat split.
  - apply Array_length_push.
  - apply Array_length_push.
  - apply Array_length_push.
  - by rewrite addHead_eq.
  - by rewrite addHead_eq.
Qed.

(** C2 (the code departs from this claim): adding an absent item
    ([undefined] or [null]) to a new Stack, Queue, Bag or ListaSimple
    raises nothing; the call completes normally, the item is stored and
    [size()] becomes 1. *)
Theorem C2_absent_item_is_accepted :
  Forall
    (fun x =>
       absent x = true /\
       Stack.push x Stack.constructor = (Normal tt, Stack.mk [x]) /\
       Stack.size (Stack.mk [x]) = 1 /\
       Queue.enqueue x Queue.constructor = (Normal tt, Queue.mk [x]) /\
       Queue.size (Queue.mk [x]) = 1 /\
       Bag.add x Bag.constructor = (Normal tt, Bag.mk [x]) /\
       Bag.size (Bag.mk [x]) = 1 /\
       fst (ListaSimple.addHead x ListaSimple.constructor) = Normal tt /\
       ListaSimple.size (snd (ListaSimple.addHead x ListaSimple.constructor)) = 1)
    [JSUndefined; JSNull].
Proof.
  repeat constructor.
Qed.

(** ** Removing from an empty container *)

Lemma Stack_pop_size_zero (s : Stack.t) :
  Stack.size s = 0 -> Stack.pop s = (Normal JSUndefined, s).
Proof. intros Hs. apply Stack_size_zero in Hs. by subst s. Qed.

Lemma Queue_dequeue_size_zero (q : Queue.t) :
  Queue.size q = 0 -> Queue.dequeue q = (Normal JSUndefined, q).
Proof. intros Hq. apply Queue_size_zero in Hq. by subst q. Qed.

Lemma resolve_Exception : resolve global_error_constructors "Exception" = None.
Proof. reflexivity. Qed.

(** C1 (the code departs from this claim for Stack and Queue): on a
    newly constructed Stack or Queue the remove operation raises nothing
    and returns [undefined]; only [removeHead] of ListaSimple throws, and
    what it throws is an instance of [Error].  All three containers are
    left as they were, with size 0. *)
Theorem C1_remove_on_new_container :
  (Stack.pop Stack.constructor = (Normal JSUndefined, Stack.constructor) /\
   Stack.size Stack.constructor = 0) /\
  (Queue.dequeue Queue.constructor = (Normal JSUndefined, Queue.constructor) /\
   Queue.size Queue.constructor = 0) /\
  (exists e,
     ListaSimple.removeHead ListaSimple.constructor =
       (Throw e, ListaSimple.constructor) /\
     instanceof e Error = true /\
     ListaSimple.size ListaSimple.constructor = 0).
Proof.
  split; [done |]. split; [done |].
  eexists. split; [by apply removeHead_undefined |]. done.
Qed.

(** C9: [pop()] on a Stack and [dequeue()] on a Queue of size 0 throw
    nothing: the call completes normally with [undefined], and the
    container is afterwards still empty, of size 0. *)
Theorem C9_array_remove_on_empty (s : Stack.t) (q : Queue.t) :
  Stack.size s = 0 ->
  Queue.size q = 0 ->
  (fst (Stack.pop s) = Normal JSUndefined /\
   throws (fst (Stack.pop s)) = false /\
   Stack.isEmpty (snd (Stack.pop s)) = true /\
   Stack.size (snd (Stack.pop s)) = 0) /\
  (fst (Queue.dequeue q) = Normal JSUndefined /\
   throws (fst (Queue.dequeue q)) = false /\
   Queue.isEmpty (snd (Queue.dequeue q)) = true /\
   Queue.size (snd (Queue.dequeue q)) = 0).
Proof.
  intros Hs Hq.
  rewrite (Stack_pop_size_zero s Hs), (Queue_dequeue_size_zero q Hq). simpl.
  unfold Stack.isEmpty, Queue.isEmpty.
  fold (Stack.size s). fold (Queue.size q). rewrite Hs, Hq. done.
Qed.

Lemma C9_array_remove_on_empty_witness :
  Stack.size Stack.constructor = 0 /\
  Queue.size Queue.constructor = 0 /\
  fst (Stack.pop Stack.constructor) = Normal JSUndefined /\
  fst (Queue.dequeue Queue.constructor) = Normal JSUndefined.
Proof.
  split; [reflexivity |]. split; [reflexivity |].
  pose proof (C9_array_remove_on_empty Stack.constructor Queue.constructor
                eq_refl eq_refl) as [[H1 _] [H2 _]].
  split; [exact H1 | exact H2].
Defined.

(** C10: [removeHead()] on an empty ListaSimple, however the list was
    brought to size 0, always throws.  The identifier [Exception] is bound
    nowhere, so the thrown value is a ReferenceError; the list is left
    as it was: [size()] is still 0 and [#first] is still [undefined]. *)
Theorem C10_removeHead_on_empty (ops : list Op) :
  ListaSimple.size (run ops ListaSimple.constructor) = 0 ->
  resolve global_error_constructors "Exception" = None /\
  exists e,
    ListaSimple.removeHead (run ops ListaSimple.constructor) =
      (Throw e, run ops ListaSimple.constructor) /\
    error_class e = ReferenceError /\
    instanceof e ReferenceError = true /\
    ListaSimple.size (snd (ListaSimple.removeHead (run ops ListaSimple.constructor))) = 0 /\
    ListaSimple.first (snd (ListaSimple.removeHead (run ops ListaSimple.constructor))) = None.
Proof.
  intros Hz. split; [apply resolve_Exception |].
  pose proof (ListaSimple_run_wf ops) as Hwf.
  assert (Hf : ListaSimple.first (run ops ListaSimple.constructor) = None)
    by (by apply wf_first).
  eexists. rewrite (removeHead_undefined _ Hf). simpl.
  repeat split; done.
Qed.

Lemma C10_removeHead_on_empty_witness :
  ListaSimple.size (run [OpAdd (JSNum 1); OpRemove] ListaSimple.constructor) = 0 /\
  exists e,
    ListaSimple.removeHead (run [OpAdd (JSNum 1); OpRemove] ListaSimple.constructor) =
      (Throw e, run [OpAdd (JSNum 1); OpRemove] ListaSimple.constructor) /\
    error_class e = ReferenceError.
Proof.
  split; [reflexivity |].
  destruct (C10_removeHead_on_empty [OpAdd (JSNum 1); OpRemove] eq_refl)
    as [_ [e (He & Hc & _)]].
  exists e. split; [exact He | exact Hc].
Defined.

(** ** Size and emptiness *)

(** C3: for every container variant, after any finite sequence of calls
    on a newly constructed container, [size()] is 0 exactly when
    [isEmpty()] returns true: for Stack, Queue and ListaSimple after any
    sequence of additions, removals (successful or not) and queries, and
    for Bag, which has no removal, after adding any items. *)
Theorem C3_size_zero_iff_isEmpty
    (v : Variant) (ops : list Op) (xs : list JSValue) :
  (lc_size (run ops (lc_new (C := container v))) = 0 <->
   lc_isEmpty (run ops (lc_new (C := container v))) = true) /\
  (Bag.size (snd (Bag_add_all xs Bag.constructor)) = 0 <->
   Bag.isEmpty (snd (Bag_add_all xs Bag.constructor)) = true).
Proof.
  split.
  - apply (size_zero_iff_isEmpty (variant_laws v)).
  - unfold Bag.isEmpty, Bag.size. symmetry. apply bool_decide_eq_true.
Qed.

(** When every removal of a sequence made on a newly constructed Stack,
    Queue or ListaSimple finds an item to detach, the removals do not
    outnumber the additions and [size()] is the number of additions
    minus the number of removals. *)
Lemma size_counts_when_removals_find_items
    (v : Variant) (ops : list Op) (s' : container v) :
  run_successful ops lc_new = Some s' ->
  count_removes ops <= count_adds ops /\
  lc_size s' = count_adds ops - count_removes ops.
Proof.
  intros Hrun.
  pose proof (@lc_inv_new _ _ (variant_laws v)) as Hnew.
  destruct (run_successful_size (variant_laws v) ops _ s' Hnew Hrun)
    as [Hinv Hsz].
  pose proof (@lc_size_nonneg _ _ (variant_laws v) s' Hinv) as Hnn.
  assert (Hz : lc_size (lc_new (C := container v)) = 0) by (by destruct v).
  rewrite Hz in Hsz. lia.
Qed.

Lemma size_counts_when_removals_find_items_witness :
  exists s' : container VListaSimple,
    run_successful [OpAdd (JSNum 1); OpAdd JSNull; OpRemove; OpSize] lc_new = Some s' /\
    lc_size s' = 1.
Proof.
  eexists. split; [reflexivity |].
  apply (size_counts_when_removals_find_items VListaSimple
           [OpAdd (JSNum 1); OpAdd JSNull; OpRemove; OpSize]).
  reflexivity.
Defined.

Lemma ListaSimple_call_add (x : JSValue) (s : ListaSimple.t) :
  call (OpAdd x) s = (Normal JSUndefined, snd (ListaSimple.addHead x s)).
Proof.
  cbn [call lc_add ListaSimple_container].
  unfold mbind, JS_bind, bind. by rewrite addHead_eq.
Qed.

(** On a ListaSimple a removal that finds no item throws, so there the
    count holds for every sequence of calls none of which throws. *)
Lemma ListaSimple_size_counts_when_no_call_throws (ops : list Op) :
  forallb is_normal (trace ops ListaSimple.constructor) = true ->
  ListaSimple.size (run ops ListaSimple.constructor) =
    count_adds ops - count_removes ops.
Proof.
  assert (Hgen : forall s, ListaRep.wf s ->
            forallb is_normal (trace ops s) = true ->
            ListaSimple.size (run ops s) =
              ListaSimple.size s + count_adds ops - count_removes ops).
  { induction ops as [| o ops IH]; intros s Hwf Hok; [simpl; lia |].
    cbn [trace forallb] in Hok. apply andb_true_iff in Hok as [Ho Hok].
    cbn [run]. destruct o as [x | | |].
    - rewrite ListaSimple_call_add in *. cbn [fst snd] in *.
      rewrite (IH _ (wf_addHead x s Hwf) Hok).
      rewrite addHead_eq. unfold ListaSimple.size. simpl. lia.
    - cbn [call lc_remove ListaSimple_container] in *.
      destruct (ListaSimple.isEmpty s) eqn:He.
      + rewrite removeHead_empty in Ho by done. done.
      + pose proof (wf_removeHead s Hwf) as Hwf'.
        destruct (removeHead_nonempty s Hwf He) as (v & s1 & Hrm & _ & Hsz).
        rewrite Hrm in *. cbn [fst snd] in *. rewrite (IH _ Hwf' Hok).
        rewrite Hsz. simpl. lia.
    - change (snd (call OpIsEmpty s)) with s in *.
      rewrite (IH _ Hwf Hok). simpl. lia.
    - change (snd (call OpSize s)) with s in *.
      rewrite (IH _ Hwf Hok). simpl. lia. }
  intros Hok. rewrite (Hgen _ wf_constructor Hok).
  unfold ListaSimple.size. simpl. lia.
Qed.

(** C6 (the code departs from this claim for Stack and Queue): on a new
    Stack or Queue the sequence remove, add 7 consists of one addition
    and one removal, both calls complete normally (the removal returns
    [undefined], the defect of C1), and [size()] is then 1, not
    1 - 1 = 0. *)
Theorem C6_removal_on_empty_breaks_the_count :
  (trace [OpRemove; OpAdd (JSNum 7)] Stack.constructor =
     [Normal JSUndefined; Normal JSUndefined] /\
   count_adds [OpRemove; OpAdd (JSNum 7)] = 1 /\
   count_removes [OpRemove; OpAdd (JSNum 7)] = 1 /\
   Stack.size (run [OpRemove; OpAdd (JSNum 7)] Stack.constructor) = 1) /\
  (trace [OpRemove; OpAdd (JSNum 7)] Queue.constructor =
     [Normal JSUndefined; Normal JSUndefined] /\
   count_adds [OpRemove; OpAdd (JSNum 7)] = 1 /\
   count_removes [OpRemove; OpAdd (JSNum 7)] = 1 /\
   Queue.size (run [OpRemove; OpAdd (JSNum 7)] Queue.constructor) = 1).
Proof. repeat split. Qed.

(** A sequence consists of successful calls exactly when no removal in
    it comes at a moment when every item added so far has been removed. *)
Lemma all_successful_iff (v : Variant) (ops : list Op) :
  never_underflows 0 ops = true <->
  is_Some (run_successful ops (lc_new (C := container v))).
Proof.
  pose proof (@lc_inv_new _ _ (variant_laws v)) as Hnew.
  rewrite <- (run_successful_total (variant_laws v) ops _ Hnew).
  by destruct v.
Qed.

(** C7: after any sequence of public operations on a newly constructed
    ListaSimple (the constructor alone included), [#n] is 0 exactly when
    [#first] is [undefined], and the [sig] chain that starts at [#first]
    ends and visits exactly [#n] nodes. *)
Theorem C7_linked_representation (ops : list Op) :
  (ListaSimple.n (run ops ListaSimple.constructor) = 0 <->
   ListaSimple.first (run ops ListaSimple.constructor) = None) /\
  ListaRep.reachable_count (run ops ListaSimple.constructor) =
    Some (ListaSimple.n (run ops ListaSimple.constructor)).
Proof.
  pose proof (ListaSimple_run_wf ops) as Hwf. split.
  - by apply wf_first.
  - by apply wf_reachable_count.
Qed.

(** ** Order laws *)

(** C4: on any stack, pushing [a], [b], [c] and popping three times
    yields [c], [b], [a] and leaves the stack as it was before; and on an
    empty stack, after pushing 1, 2, "Hola", "Mundo" the size is 4, a pop
    returns "Mundo" and leaves size 3, and three more pops leave the
    stack empty with size 0. *)
Theorem C4_lifo (a b c : JSValue) (s : Stack.t) :
  lifo_client a b c s = (Normal [c; b; a], s) /\
  stack_scenario Stack.constructor =
    (Normal [JSNum 4; JSStr "Mundo"; JSNum 3; JSNum 0; JSBool true],
     Stack.constructor).
Proof.
  split; [| reflexivity].
  destruct s as [l].
  unfold lifo_client, mbind, JS_bind, bind, mret, JS_ret, ret.
  rewrite !Stack_push_eq. simpl.
  rewrite (Stack_pop_top ((l ++ [a]) ++ [b]) c).
  rewrite (Stack_pop_top (l ++ [a]) b).
  by rewrite (Stack_pop_top l a).
Qed.

Lemma dequeue_times_all (l : list JSValue) :
  dequeue_times (List.length l) (Queue.mk l) = (Normal l, Queue.mk []).
Proof.
  induction l as [| x l IH]; [reflexivity |].
  simpl. unfold mbind, JS_bind, bind, mret, JS_ret, ret in *.
  rewrite Queue_dequeue_head. by rewrite IH.
Qed.

(** C5, as stated, fails on a queue that already holds an item: the
    first of the three values dequeued is that older item. *)
Lemma C5_counterexample :
  fifo_client (JSNum 1) (JSNum 2) (JSNum 3) (Queue.mk [JSNum 0]) =
    (Normal [JSNum 0; JSNum 1; JSNum 2], Queue.mk [JSNum 3]) /\
  [JSNum 0; JSNum 1; JSNum 2] <> [JSNum 1; JSNum 2; JSNum 3].
Proof. split; [reflexivity | discriminate]. Qed.

(** C5 (amended): enqueuing [a], [b], [c] into an empty queue and
    dequeuing three times yields [a], [b], [c] and leaves the queue
    empty; on a queue that already holds items, those come out first, in
    their order, followed by [a], [b], [c]; and after enqueuing 1 and
    "Hola" into an empty queue the size is 2, the dequeues return 1 and
    then "Hola", and the queue is empty. *)
Theorem C5_fifo (a b c : JSValue) (q : Queue.t) :
  fifo_client a b c Queue.constructor = (Normal [a; b; c], Queue.constructor) /\
  (Queue.enqueue a;; Queue.enqueue b;; Queue.enqueue c;;
   dequeue_times (List.length (Queue.items q) + 3)) q =
    (Normal (Queue.items q ++ [a; b; c]), Queue.constructor) /\
  queue_scenario Queue.constructor =
    (Normal [JSNum 2; JSNum 1; JSStr "Hola"; JSBool true], Queue.constructor).
Proof.
  split; [reflexivity |]. split; [| reflexivity].
  destruct q as [l]. unfold mbind, JS_bind, bind.
  rewrite !Queue_enqueue_eq. cbn [Queue.items].
  replace (((l ++ [a]) ++ [b]) ++ [c]) with (l ++ [a; b; c])
    by (by rewrite <- !app_assoc).
  replace (List.length l + 3)%nat with (List.length (l ++ [a; b; c]))
    by (rewrite length_app; reflexivity).
  apply dequeue_times_all.
Qed.

(** ** The assertions at the end of each module

    Each module of the repository ends with a few [assert] calls; the
    model passes them. *)

Example Stack_unit_tests :
  Stack.isEmpty Stack.constructor = true /\
  Stack.size Stack.constructor = 0 /\
  (Stack.push (JSNum 1);; Stack.push (JSStr "Hola");;
   k ← gets Stack.size; x ← Stack.pop; y ← Stack.pop; mret (k, x, y))
    Stack.constructor =
    (Normal (2, JSStr "Hola", JSNum 1), Stack.constructor).
Proof. repeat split. Qed.

Example Queue_unit_tests :
  Queue.isEmpty Queue.constructor = true /\
  Queue.size Queue.constructor = 0 /\
  (Queue.enqueue (JSNum 1);; Queue.enqueue (JSStr "Hola");;
   k ← gets Queue.size; x ← Queue.dequeue; y ← Queue.dequeue; mret (k, x, y))
    Queue.constructor =
    (Normal (2, JSNum 1, JSStr "Hola"), Queue.constructor).
Proof. repeat split. Qed.

Example Bag_unit_tests :
  Bag.isEmpty Bag.constructor = true /\
  Bag.size Bag.constructor = 0 /\
  (Bag.add (JSNum 1);; Bag.add (JSStr "Hola");; gets Bag.size) Bag.constructor =
    (Normal 2, Bag.mk [JSNum 1; JSStr "Hola"]).
Proof. repeat split. Qed.

Example ListaSimple_unit_tests :
  ListaSimple.isEmpty ListaSimple.constructor = true /\
  ListaSimple.size ListaSimple.constructor = 0 /\
  fst ((ListaSimple.addHead (JSNum 1);; ListaSimple.addHead (JSNum 2);;
        ListaSimple.addHead (JSStr "Hola");; ListaSimple.addHead (JSStr "Mundo");;
        e4 ← gets ListaSimple.isEmpty; k4 ← gets ListaSimple.size;
        it ← ListaSimple.removeHead; k3 ← gets ListaSimple.size;
        ListaSimple.removeHead;; ListaSimple.removeHead;; ListaSimple.removeHead;;
        e0 ← gets ListaSimple.isEmpty; k0 ← gets ListaSimple.size;
        mret (e4, k4, it, k3, e0, k0)) ListaSimple.constructor) =
    Normal (false, 4, JSStr "Mundo", 3, true, 0).
Proof. repeat split. Qed.

(** * Further properties of the containers *)

(** ** ListaSimple: the sequence a list represents *)

Section ListaSimpleContents.
Import ListaSimple ListaRep ListaContents.

Lemma Holds_Chain (h : gmap loc Nodo) (r : option loc) (xs : list JSValue) :
  Holds h r xs ->
  exists ls, Chain h r ls /\ List.length ls = List.length xs.
Proof.
  induction 1 as [| x nd xs Hx _ (ls & Hc & Hlen)].
  - exists []. split; [constructor | done].
  - exists (x :: ls). split; [by econstructor | simpl; by rewrite Hlen].
Qed.

Lemma Holds_functional (h : gmap loc Nodo) (r : option loc)
    (xs ys : list JSValue) :
  Holds h r xs -> Holds h r ys -> xs = ys.
Proof.
  intros H1. revert ys. induction H1 as [| x nd xs Hx _ IH]; intros ys H2.
  - by inversion H2.
  - inversion H2 as [| x' nd' ys' Hx' Hh']; subst.
    rewrite Hx in Hx'. injection Hx' as <-. f_equal. by apply IH.
Qed.

Lemma Holds_insert (h : gmap loc Nodo) (r : option loc) (xs : list JSValue)
    (x : loc) (nd : Nodo) :
  Holds h r xs -> h !! x = None -> Holds (<[x := nd]> h) r xs.
Proof.
  intros Hh Hx. induction Hh as [| y ndy xs Hy _ IH]; [constructor |].
  econstructor; [| exact IH].
  rewrite lookup_insert_ne; [done |]. intros ->. congruence.
Qed.

Lemma walk_items_Holds (fuel : nat) (h : gmap loc Nodo) (r : option loc)
    (xs : list JSValue) :
  walk_items fuel h r = Some xs -> Holds h r xs.
Proof.
  revert r xs. induction fuel as [| fuel IH]; intros [x |] xs Hw;
    simpl in Hw; try done.
  - injection Hw as <-. constructor.
  - destruct (h !! x) as [nd |] eqn:Hx; [| done].
    apply fmap_Some in Hw as (xs' & Hw & ->).
    econstructor; [exact Hx |]. by apply IH.
  - injection Hw as <-. constructor.
Qed.

Lemma Holds_walk_items (fuel : nat) (h : gmap loc Nodo) (r : option loc)
    (xs : list JSValue) :
  Holds h r xs -> (List.length xs <= fuel)%nat -> walk_items fuel h r = Some xs.
Proof.
  intros Hh. revert fuel. induction Hh as [| x nd xs Hx _ IH]; intros fuel Hf.
  - by destruct fuel.
  - destruct fuel as [| fuel]; simpl in *; [lia |].
    rewrite Hx, IH by lia. done.
Qed.

(** [contents] computes exactly the sequence of items along the chain. *)
Lemma contents_Holds (s : t) (xs : list JSValue) :
  contents s = Some xs <-> Holds (heap s) (first s) xs.
Proof.
  unfold contents. split; [apply walk_items_Holds |].
  intros Hh. apply Holds_walk_items; [done |].
  destruct (Holds_Chain _ _ _ Hh) as (ls & Hc & Hlen).
  pose proof (Chain_length_le _ _ _ Hc). lia.
Qed.

Lemma represents_wf (s : t) (xs : list JSValue) : represents s xs -> wf s.
Proof.
  intros [Hh Hn]. destruct (Holds_Chain _ _ _ Hh) as (ls & Hc & Hlen).
  exists ls. split; [done |]. by rewrite Hlen.
Qed.

Lemma represents_constructor : represents constructor [].
Proof. split; [constructor | reflexivity]. Qed.

Lemma represents_addHead (x : JSValue) (s : t) (xs : list JSValue) :
  represents s xs -> represents (snd (addHead x s)) (x :: xs).
Proof.
  intros [Hh Hn]. rewrite addHead_eq. simpl.
  pose proof (is_fresh (dom (heap s))) as Hfresh.
  apply not_elem_of_dom in Hfresh. split; cbn [heap first n].
  - apply (Holds_step _ _ (mkNodo x (first s))); [apply lookup_insert_eq |].
    by apply Holds_insert.
  - cbn [List.length]. lia.
Qed.

Lemma represents_removeHead_cons (s : t) (x : JSValue) (xs : list JSValue) :
  represents s (x :: xs) ->
  exists s', removeHead s = (Normal x, s') /\ represents s' xs /\
             heap s' = heap s.
Proof.
  intros [Hh Hn]. inversion Hh as [| y nd xs' Hy Hh' Hf]; subst.
  symmetry in Hf. rewrite (removeHead_node s y nd) by done.
  eexists. split; [done |]. split; [| done].
  split; cbn [heap first n]; [done |]. cbn [List.length] in Hn. lia.
Qed.

Lemma represents_removeHead_nil (s : t) :
  represents s [] ->
  removeHead s =
    (Throw (mkErrorObject ReferenceError "Exception is not defined"), s).
Proof.
  intros [Hh _]. inversion Hh as [Hf |]. by apply removeHead_undefined.
Qed.

Lemma represents_contents (s : t) (xs : list JSValue) :
  represents s xs -> contents s = Some xs.
Proof. intros [Hh _]. by apply contents_Holds. Qed.

End ListaSimpleContents.

(** Replace the operations of the shared interface by the methods
    behind them. *)
Ltac unfold_calls :=
  cbn [call lc_add lc_remove lc_isEmpty lc_size lc_new
       Stack_container Queue_container ListaSimple_container] in *.

(** ** Stack and ListaSimple side by side *)

Section StackVersusLista.
Import ListaContents.

Lemma sim_call (o : Op) (st : Stack.t) (ls : ListaSimple.t) :
  represents ls (rev (Stack.items st)) ->
  represents (snd (call o ls)) (rev (Stack.items (snd (call o st)))).
Proof.
  intros Hrep. destruct o as [x | | |]; unfold_calls; try done.
  - unfold mbind, JS_bind, bind. rewrite Stack_push_eq.
    pose proof (represents_addHead x ls _ Hrep) as Hadd.
    rewrite addHead_eq in *. simpl. by rewrite rev_unit.
  - destruct st as [a]. destruct a as [| x a' _] using rev_ind.
    + simpl in *. by rewrite represents_removeHead_nil.
    + rewrite Stack_pop_top. simpl in *. rewrite rev_unit in Hrep.
      destruct (represents_removeHead_cons _ _ _ Hrep) as (s' & -> & Hs' & _).
      done.
Qed.

Lemma sim_run (ops : list Op) (st : Stack.t) (ls : ListaSimple.t) :
  represents ls (rev (Stack.items st)) ->
  represents (run ops ls) (rev (Stack.items (run ops st))).
Proof.
  revert st ls. induction ops as [| o ops IH]; intros st ls Hrep; simpl;
    [done |].
  apply IH. by apply sim_call.
Qed.

Lemma sim_result (o : Op) (st : Stack.t) (ls : ListaSimple.t) :
  represents ls (rev (Stack.items st)) ->
  successful o st = true ->
  fst (call o st) = fst (call o ls).
Proof.
  intros Hrep Hok. destruct o as [x | | |]; unfold successful in Hok;
    unfold_calls.
  - unfold mbind, JS_bind, bind. by rewrite Stack_push_eq, addHead_eq.
  - apply andb_true_iff in Hok as [Hne _]. apply negb_true_iff in Hne.
    unfold Stack.isEmpty in Hne. apply bool_decide_eq_false in Hne.
    rewrite Array_length_zero in Hne.
    destruct st as [a]. destruct a as [| x a' _] using rev_ind; [done |].
    rewrite Stack_pop_top. simpl in *. rewrite rev_unit in Hrep.
    by destruct (represents_removeHead_cons _ _ _ Hrep) as (s' & -> & _).
  - destruct Hrep as [_ Hn]. unfold mbind, JS_bind, bind, gets. simpl.
    unfold Stack.isEmpty, ListaSimple.isEmpty, Array.length.
    rewrite Hn, length_rev. done.
  - destruct Hrep as [_ Hn]. unfold mbind, JS_bind, bind, gets. simpl.
    unfold Stack.size, ListaSimple.size, Array.length.
    rewrite Hn, length_rev. done.
Qed.

Lemma sim_trace (ops : list Op) (st : Stack.t) (ls : ListaSimple.t) :
  @lc_inv _ _ Stack_laws st ->
  represents ls (rev (Stack.items st)) ->
  never_underflows (Stack.size st) ops = true ->
  trace ops st = trace ops ls.
Proof.
  revert st ls. induction ops as [| o ops IH]; intros st ls Hinv Hrep Hnu;
    [done |].
  rewrite never_underflows_cons in Hnu. apply andb_true_iff in Hnu as [Ho Hnu].
  change (Stack.size st) with (lc_size st) in Ho, Hnu.
  rewrite <- (successful_iff Stack_laws o st Hinv) in Ho.
  destruct (successful_call Stack_laws o st Hinv Ho) as [Hinv' Hsz].
  rewrite <- Hsz in Hnu. cbn [trace]. f_equal.
  - by apply sim_result.
  - apply IH; [done | by apply sim_call | done].
Qed.

End StackVersusLista.

(** ** Stack: any number of items *)

Lemma Stack_add_all (xs : list JSValue) (s : Stack.t) :
  add_all xs s = (Normal tt, Stack.mk (Stack.items s ++ xs)).
Proof.
  revert s. induction xs as [| x xs IH]; intros [l].
  - simpl. by rewrite app_nil_r.
  - cbn [add_all]. unfold mbind, JS_bind, bind. unfold_calls.
    rewrite Stack_push_eq, IH. simpl. by rewrite <- app_assoc.
Qed.

Lemma Stack_remove_times (l xs : list JSValue) :
  remove_times (List.length xs) (Stack.mk (l ++ xs)) =
    (Normal (rev xs), Stack.mk l).
Proof.
  induction xs as [| x xs IH] using rev_ind.
  - simpl. by rewrite app_nil_r.
  - rewrite length_app. simpl. rewrite Nat.add_1_r. cbn [remove_times].
    unfold mbind, JS_bind, bind. unfold_calls.
    rewrite app_assoc, Stack_pop_top, IH. by rewrite rev_unit.
Qed.

(** X1: on any stack, pushing the items of a list and then popping as
    many times as items were pushed returns the items last-pushed first,
    and the stack is exactly as it was before. *)
Theorem X1_Stack_lifo_all (xs : list JSValue) (s : Stack.t) :
  (add_all xs;; remove_times (List.length xs)) s = (Normal (rev xs), s).
Proof.
  unfold mbind, JS_bind, bind. rewrite Stack_add_all.
  rewrite Stack_remove_times. by destruct s.
Qed.

(** ** Queue: first in, first out under any interleaving *)

Lemma count_removes_nonneg (ops : list Op) : 0 <= count_removes ops.
Proof. induction ops as [| [] ops IH]; simpl; lia. Qed.

Lemma count_adds_nonneg (ops : list Op) : 0 <= count_adds ops.
Proof. induction ops as [| [] ops IH]; simpl; lia. Qed.

Lemma Queue_interleaved (ops : list Op) (l : list JSValue) :
  never_underflows (Z.of_nat (List.length l)) ops = true ->
  removals ops (Queue.mk l) =
    Normal <$> take (Z.to_nat (count_removes ops)) (l ++ added ops) /\
  Queue.items (run ops (Queue.mk l)) =
    drop (Z.to_nat (count_removes ops)) (l ++ added ops).
Proof.
  revert l. induction ops as [| o ops IH]; intros l Hnu.
  - simpl. by rewrite app_nil_r.
  - destruct o as [x | | |]; cbn [never_underflows] in Hnu.
    + cbn [removals run added count_removes]. unfold_calls.
      unfold mbind, JS_bind, bind. rewrite Queue_enqueue_eq. simpl.
      replace (l ++ x :: added ops) with ((l ++ [x]) ++ added ops)
        by (by rewrite <- app_assoc).
      apply IH. rewrite length_app. simpl.
      by replace (Z.of_nat (List.length l + 1)) with (Z.of_nat (List.length l) + 1)
        by lia.
    + apply andb_true_iff in Hnu as [Hpos Hnu].
      apply bool_decide_eq_true in Hpos.
      destruct l as [| y l]; [simpl in Hpos; lia |].
      cbn [removals run added count_removes]. unfold_calls.
      rewrite Queue_dequeue_head. simpl fst. simpl snd.
      pose proof (count_removes_nonneg ops).
      replace (Z.to_nat (1 + count_removes ops))
        with (S (Z.to_nat (count_removes ops))) by lia.
      simpl. destruct (IH l) as [-> ->]; [| done].
      rewrite <- Hnu. f_equal. simpl. lia.
    + cbn [removals run added count_removes]. by apply IH.
    + cbn [removals run added count_removes]. by apply IH.
Qed.

(** X2: when no removal of a client meets an empty queue, the dequeues
    return, in order, the items enqueued first (as many as there are
    dequeues), and the queue is left holding the remaining items in the
    order they were enqueued, however enqueues and dequeues are
    interleaved. *)
Theorem X2_Queue_fifo_interleaved (ops : list Op) :
  never_underflows 0 ops = true ->
  removals ops Queue.constructor =
    Normal <$> take (Z.to_nat (count_removes ops)) (added ops) /\
  Queue.items (run ops Queue.constructor) =
    drop (Z.to_nat (count_removes ops)) (added ops).
Proof. intros Hnu. by apply (Queue_interleaved ops []). Qed.

Lemma X2_Queue_fifo_interleaved_witness :
  removals
    [OpAdd (JSNum 1); OpAdd (JSNum 2); OpRemove; OpAdd (JSNum 3); OpRemove]
    Queue.constructor = [Normal (JSNum 1); Normal (JSNum 2)] /\
  Queue.items
    (run [OpAdd (JSNum 1); OpAdd (JSNum 2); OpRemove; OpAdd (JSNum 3); OpRemove]
       Queue.constructor) = [JSNum 3].
Proof.
  apply (X2_Queue_fifo_interleaved
           [OpAdd (JSNum 1); OpAdd (JSNum 2); OpRemove; OpAdd (JSNum 3); OpRemove]).
  reflexivity.
Defined.

(** ** Size under removals that find nothing *)

Lemma run_size_saturating {C : Type} `{LinearContainer C}
    (L : LinearContainerLaws C) (ops : list Op) (s : C) :
  lc_inv s -> lc_size (run ops s) = saturating_size (lc_size s) ops.
Proof.
  revert s. induction ops as [| o ops IH]; intros s Hs; [done |].
  cbn [run]. rewrite (IH _ (call_inv L o s Hs)).
  destruct o as [x | | |]; cbn [saturating_size call]; try done.
  - destruct (lc_add_spec x s Hs) as (s' & Hadd & _ & Hsz).
    unfold mbind, JS_bind, bind. rewrite Hadd. simpl. by rewrite Hsz.
  - pose proof (lc_size_nonneg s Hs) as Hnn.
    destruct (lc_isEmpty s) eqn:He.
    + rewrite (lc_remove_empty s Hs He).
      apply lc_isEmpty_size in He. f_equal. lia.
    + destruct (lc_remove_spec s Hs He) as (v & s' & Hrm & _ & Hsz).
      rewrite Hrm. simpl. f_equal.
      assert (lc_size s <> 0); [| lia].
      intros Hz. apply lc_isEmpty_size in Hz. congruence.
Qed.

(** X3: for Stack, Queue and ListaSimple alike, after any sequence of
    calls on a new container, removals on an empty container included,
    [size()] is the counter that each addition raises by one and each
    removal lowers by one unless it is 0; it is never negative. *)
Theorem X3_size_saturates (v : Variant) (ops : list Op) :
  lc_size (run ops (lc_new (C := container v))) = saturating_size 0 ops /\
  0 <= lc_size (run ops (lc_new (C := container v))).
Proof.
  pose proof (@lc_inv_new _ _ (variant_laws v)) as Hnew.
  split.
  - rewrite (run_size_saturating (variant_laws v) ops _ Hnew).
    by destruct v.
  - apply (@lc_size_nonneg _ _ (variant_laws v)).
    by apply run_inv.
Qed.

(** ** Bag *)

(** X4: adding the items of a list to a bag appends them, in order and
    with repetitions and absent items kept, to the items it holds; the
    call never throws and [size()] grows by the number of items. *)
Theorem X4_Bag_add_all (xs : list JSValue) (b : Bag.t) :
  Bag_add_all xs b = (Normal tt, Bag.mk (Bag.items b ++ xs)) /\
  Bag.size (snd (Bag_add_all xs b)) = Bag.size b + Z.of_nat (List.length xs) /\
  (Bag.isEmpty (snd (Bag_add_all xs b)) = true <->
   Bag.items b = [] /\ xs = []).
Proof.
  assert (Heq : forall xs b,
    Bag_add_all xs b = (Normal tt, Bag.mk (Bag.items b ++ xs))).
  { clear. induction xs as [| x xs IH]; intros [l].
    - simpl. by rewrite app_nil_r.
    - cbn [Bag_add_all]. unfold mbind, JS_bind, bind.
      rewrite Bag_add_eq, IH. simpl. by rewrite <- app_assoc. }
  rewrite Heq. split; [done |]. simpl.
  unfold Bag.size, Bag.isEmpty, Array.length. simpl.
  rewrite length_app. split; [lia |].
  rewrite bool_decide_eq_true. split.
  - intros Hz. destruct (Bag.items b); [| simpl in Hz; lia].
    destruct xs; [done | simpl in Hz; lia].
  - by intros [-> ->].
Qed.

(** ** ListaSimple as a stack *)

Section ListaSimpleAsStack.
Import ListaContents.

Lemma run_represents (ops : list Op) :
  represents (run ops ListaSimple.constructor)
    (rev (Stack.items (run ops Stack.constructor))).
Proof. apply sim_run, represents_constructor. Qed.

(** X5: after the same calls, whatever they are, a ListaSimple holds
    exactly the items a Stack holds, the head of the list being the top
    of the stack (the last element of the array). *)
Theorem X5_ListaSimple_holds_what_Stack_holds (ops : list Op) :
  contents (run ops ListaSimple.constructor) =
    Some (rev (Stack.items (run ops Stack.constructor))).
Proof. apply represents_contents, run_represents. Qed.

(** X6: as long as no removal meets an empty container, every call made
    on a ListaSimple completes exactly as the same call made on a Stack:
    same returned items, same sizes, same answers of [isEmpty()]. *)
Theorem X6_ListaSimple_answers_as_Stack (ops : list Op) :
  never_underflows 0 ops = true ->
  trace ops ListaSimple.constructor = trace ops Stack.constructor.
Proof.
  intros Hnu. symmetry. apply sim_trace.
  - apply (@lc_inv_new _ _ Stack_laws).
  - apply represents_constructor.
  - exact Hnu.
Qed.

Lemma X6_ListaSimple_answers_as_Stack_witness :
  trace [OpAdd (JSNum 1); OpAdd JSNull; OpSize; OpRemove; OpRemove; OpIsEmpty]
    ListaSimple.constructor =
  trace [OpAdd (JSNum 1); OpAdd JSNull; OpSize; OpRemove; OpRemove; OpIsEmpty]
    Stack.constructor.
Proof.
  apply (X6_ListaSimple_answers_as_Stack
           [OpAdd (JSNum 1); OpAdd JSNull; OpSize; OpRemove; OpRemove; OpIsEmpty]).
  reflexivity.
Defined.

Lemma ListaSimple_add_all (xs ys : list JSValue) (s : ListaSimple.t) :
  represents s ys ->
  exists s', add_all xs s = (Normal tt, s') /\ represents s' (rev xs ++ ys).
Proof.
  revert s ys. induction xs as [| x xs IH]; intros s ys Hrep.
  - exists s. by split.
  - cbn [add_all]. unfold mbind, JS_bind, bind. unfold_calls.
    pose proof (represents_addHead x s ys Hrep) as Hadd.
    rewrite addHead_eq in *. cbn [snd] in Hadd.
    destruct (IH _ _ Hadd) as (s' & -> & Hs').
    exists s'. split; [done |]. simpl. by rewrite <- app_assoc.
Qed.

Lemma ListaSimple_remove_times (zs ys : list JSValue) (s : ListaSimple.t) :
  represents s (zs ++ ys) ->
  exists s', remove_times (List.length zs) s = (Normal zs, s') /\
             represents s' ys.
Proof.
  revert s. induction zs as [| z zs IH]; intros s Hrep.
  - exists s. by split.
  - simpl in Hrep. cbn [List.length remove_times].
    unfold mbind, JS_bind, bind. unfold_calls.
    destruct (represents_removeHead_cons _ _ _ Hrep) as (s1 & -> & Hs1 & _).
    destruct (IH _ Hs1) as (s' & -> & Hs').
    by exists s'.
Qed.

(** X7: on a ListaSimple in any state a client can reach, adding the
    items of a list at the head and then removing the head as many times
    returns the items last-added first, without throwing, and leaves the
    list with the contents and the size it had before. *)
Theorem X7_ListaSimple_lifo_all (ops : list Op) (xs : list JSValue) :
  exists s',
    (add_all xs;; remove_times (List.length xs))
      (run ops ListaSimple.constructor) = (Normal (rev xs), s') /\
    contents s' = contents (run ops ListaSimple.constructor) /\
    ListaSimple.size s' = ListaSimple.size (run ops ListaSimple.constructor).
Proof.
  pose proof (run_represents ops) as Hrep.
  destruct (ListaSimple_add_all xs _ _ Hrep) as (s1 & Hadd & Hs1).
  destruct (ListaSimple_remove_times _ _ _ Hs1) as (s' & Hrm & Hs').
  rewrite length_rev in Hrm.
  exists s'. unfold mbind, JS_bind, bind. rewrite Hadd, Hrm.
  split; [done |]. split.
  - by rewrite (represents_contents _ _ Hs'), (represents_contents _ _ Hrep).
  - destruct Hs' as [_ Hn']. destruct Hrep as [_ Hn].
    unfold ListaSimple.size. by rewrite Hn', Hn.
Qed.

End ListaSimpleAsStack.

(** ** ListaSimple: when removeHead throws, and what it leaves behind *)

(** X8: in any state a client can bring a ListaSimple to, [removeHead()]
    throws exactly when [isEmpty()] is true, and completes normally
    exactly when it is false. *)
Theorem X8_removeHead_throws_iff_isEmpty (ops : list Op) :
  throws (fst (ListaSimple.removeHead (run ops ListaSimple.constructor))) =
    ListaSimple.isEmpty (run ops ListaSimple.constructor) /\
  is_normal (fst (ListaSimple.removeHead (run ops ListaSimple.constructor))) =
    negb (ListaSimple.isEmpty (run ops ListaSimple.constructor)).
Proof.
  pose proof (ListaSimple_run_wf ops) as Hwf.
  destruct (ListaSimple.isEmpty (run ops ListaSimple.constructor)) eqn:He.
  - by rewrite removeHead_empty.
  - destruct (removeHead_nonempty _ Hwf He) as (v & s' & -> & _). done.
Qed.

(** X9: when [removeHead()] removes the first node of a list a client
    has built, the chain of the list afterwards is the old chain without
    that node, the node is no longer reachable from [#first], and no
    object of the heap has been modified. *)
Theorem X9_removeHead_detaches (ops : list Op) (x : positive) :
  ListaSimple.first (run ops ListaSimple.constructor) = Some x ->
  exists ls,
    ListaRep.reachable (run ops ListaSimple.constructor) = Some (x :: ls) /\
    ListaRep.reachable
      (snd (ListaSimple.removeHead (run ops ListaSimple.constructor))) = Some ls /\
    (x ∉ ls) /\
    ListaSimple.heap
      (snd (ListaSimple.removeHead (run ops ListaSimple.constructor))) =
    ListaSimple.heap (run ops ListaSimple.constructor).
Proof.
  intros Hf. destruct (ListaSimple_run_wf ops) as (ls & Hc & Hn).
  pose proof (Chain_NoDup _ _ _ Hc) as Hnd.
  rewrite Hf in Hc. inversion Hc as [| y nd ls' Hy Hc' Heq]; subst.
  apply NoDup_cons in Hnd as [Hnotin _].
  exists ls'. rewrite (removeHead_node _ x nd) by done.
  split; [| split; [| split; [done | done]]].
  - apply reachable_Chain. by rewrite Hf.
  - by apply reachable_Chain.
Qed.

Lemma X9_removeHead_detaches_witness :
  exists ls,
    ListaRep.reachable
      (run [OpAdd (JSNum 1); OpAdd (JSNum 2)] ListaSimple.constructor) =
      Some (2%positive :: ls) /\
    2%positive ∉ ls.
Proof.
  destruct (X9_removeHead_detaches [OpAdd (JSNum 1); OpAdd (JSNum 2)]
              2%positive eq_refl) as (ls & H1 & _ & H3 & _).
  exists ls. split; [exact H1 | exact H3].
Defined.

(** X10: [addHead(item)] on any store allocates exactly one node, at a
    location that held no object before; the node holds the item and
    points to the old first node, [#first] points to it, and every
    object that was in the heap is still there, unchanged. *)
Theorem X10_addHead_allocates_one_node (it : JSValue) (s : ListaSimple.t) :
  exists x,
    ListaSimple.first (snd (ListaSimple.addHead it s)) = Some x /\
    ListaSimple.heap s !! x = None /\
    ListaSimple.heap (snd (ListaSimple.addHead it s)) !! x =
      Some (ListaSimple.mkNodo it (ListaSimple.first s)) /\
    ListaSimple.heap s ⊆ ListaSimple.heap (snd (ListaSimple.addHead it s)) /\
    base.size (ListaSimple.heap (snd (ListaSimple.addHead it s))) =
      S (base.size (ListaSimple.heap s)).
Proof.
  rewrite addHead_eq. simpl.
  pose proof (is_fresh (dom (ListaSimple.heap s))) as Hfresh.
  apply not_elem_of_dom in Hfresh.
  eexists. split; [done |]. split; [exact Hfresh |].
  split; [apply lookup_insert_eq |]. split.
  - by apply insert_subseteq.
  - by apply map_size_insert_None.
Qed.

(** * The date classes *)

(** ** Strings *)

Lemma append_cons (c : Ascii.ascii) (s t : string) :
  String c s +:+ t = String c (s +:+ t).
Proof. reflexivity. Qed.

Lemma append_nil_r (s : string) : s +:+ "" = s.
Proof.
  induction s as [| c s IH]; [done |].
  rewrite append_cons. by f_equal.
Qed.

Lemma append_assoc (s1 s2 s3 : string) :
  (s1 +:+ s2) +:+ s3 = s1 +:+ (s2 +:+ s3).
Proof.
  induction s1 as [| c s1 IH]; [done |].
  rewrite !append_cons. by f_equal.
Qed.

Lemma Ascii_compare_refl (c : Ascii.ascii) : Ascii.compare c c = Eq.
Proof. unfold Ascii.compare. apply N.compare_refl. Qed.

Lemma String_compare_prefix (p a b : string) :
  String.compare (p +:+ a) (p +:+ b) = String.compare a b.
Proof.
  induction p as [| c p IH]; [done |].
  rewrite !append_cons. cbn [String.compare]. by rewrite Ascii_compare_refl.
Qed.

(** ** Zero padding *)

Lemma fill_zero_succ (k : nat) :
  fill_to (S k) "0" "0" = String "0"%char (fill_to k "0" "") /\
  fill_to (S k) "0" "" = String "0"%char (fill_to k "0" "").
Proof. done. Qed.

Lemma fill_zero_eq (k : nat) : fill_to k "0" "0" = fill_to k "0" "".
Proof. by destruct k. Qed.

Lemma zeros_snoc (k : nat) (s : string) :
  fill_to k "0" "" +:+ String "0"%char s = String "0"%char (fill_to k "0" "" +:+ s).
Proof.
  induction k as [| k IH]; [done |].
  cbn [fill_to]. rewrite !append_cons. by rewrite IH.
Qed.

Lemma digits_go_zero (w : nat) (s : string) :
  digits_go w 0 s = fill_to w "0" "" +:+ s.
Proof.
  revert s. induction w as [| w IH]; intros s; [done |].
  cbn [digits_go]. change (0 `div` 10)%N with 0%N.
  change (pretty_N_char (0 `mod` 10)%N) with "0"%char.
  rewrite IH, zeros_snoc. done.
Qed.

Lemma digits_go_app (w : nat) (x : N) (s1 s2 : string) :
  digits_go w x (s1 +:+ s2) = digits_go w x s1 +:+ s2.
Proof.
  revert x s1. induction w as [| w IH]; intros x s1; [done |].
  cbn [digits_go]. by rewrite <- IH.
Qed.

Lemma pow10_succ (w : nat) : (10 ^ N.of_nat (S w) = 10 * 10 ^ N.of_nat w)%N.
Proof. rewrite Nat2N.inj_succ, N.pow_succ_r; lia. Qed.

(** The numeral of [x] is the [w]-digit form of [x] without its leading
    zeros. *)
Lemma digits_go_pretty (w : nat) (x : N) (s : string) :
  (x < 10 ^ N.of_nat w)%N ->
  (String.length (pretty_N_go x s) <= w + String.length s)%nat /\
  digits_go w x s =
    fill_to (w + String.length s - String.length (pretty_N_go x s)) "0" ""
      +:+ pretty_N_go x s.
Proof.
  revert x s. induction w as [| w IH]; intros x s Hx.
  - assert (x = 0%N) as -> by (simpl in Hx; lia).
    rewrite pretty_N_go_0. simpl. split; [lia |].
    by rewrite Nat.sub_diag.
  - destruct (decide (x = 0%N)) as [-> | Hne].
    + rewrite pretty_N_go_0, digits_go_zero. split; [lia |].
      by replace (S w + String.length s - String.length s)%nat with (S w) by lia.
    + rewrite pretty_N_go_step by lia. cbn [digits_go].
      rewrite pow10_succ in Hx.
      assert (Hdiv : (x `div` 10 < 10 ^ N.of_nat w)%N).
      { apply N.Div0.div_lt_upper_bound. lia. }
      destruct (IH _ (String (pretty_N_char (x `mod` 10)%N) s) Hdiv)
        as [Hlen Heq].
      simpl String.length in *. split; [lia |].
      rewrite Heq. f_equal. f_equal. lia.
Qed.

Lemma pretty_N_nonzero (x : N) : x <> 0%N -> pretty x = pretty_N_go x "".
Proof. intros Hx. unfold pretty, pretty_N. by rewrite decide_False. Qed.

Lemma padStart_digits (w : nat) (x : N) :
  (0 < w)%nat -> (x < 10 ^ N.of_nat w)%N ->
  padStart w "0" (pretty x) = digits_go w x "".
Proof.
  intros Hw Hx. destruct (decide (x = 0%N)) as [-> | Hne].
  - rewrite digits_go_zero, append_nil_r.
    change (pretty 0%N) with "0". unfold padStart. simpl String.length.
    destruct w as [| [| w]]; [lia | done |].
    replace (S (S w) <=? 1)%nat with false by (symmetry; apply Nat.leb_gt; lia).
    replace (S (S w) - 1)%nat with (S w) by lia.
    rewrite fill_zero_eq, zeros_snoc, append_nil_r. done.
  - rewrite pretty_N_nonzero by done.
    destruct (digits_go_pretty w x "" Hx) as [Hlen Heq].
    simpl String.length in *. rewrite Nat.add_0_r in *.
    rewrite Heq. unfold padStart.
    destruct (w <=? String.length (pretty_N_go x ""))%nat eqn:Hle.
    + apply Nat.leb_le in Hle.
      by replace (w - String.length (pretty_N_go x ""))%nat with 0%nat by lia.
    + by rewrite fill_zero_eq.
Qed.

Lemma Number_toString_nonneg (z : Z) :
  0 <= z -> Number_toString z = pretty (Z.to_N z).
Proof. intros Hz. by destruct z. Qed.

(** ** Comparing zero-padded numerals *)

Lemma pretty_N_char_compare (a b : N) :
  (a < 10)%N -> (b < 10)%N ->
  Ascii.compare (pretty_N_char a) (pretty_N_char b) = (a ?= b)%N.
Proof.
  intros Ha Hb.
  assert (a = 0 \/ a = 1 \/ a = 2 \/ a = 3 \/ a = 4 \/ a = 5 \/ a = 6 \/
          a = 7 \/ a = 8 \/ a = 9)%N as Ha' by lia.
  assert (b = 0 \/ b = 1 \/ b = 2 \/ b = 3 \/ b = 4 \/ b = 5 \/ b = 6 \/
          b = 7 \/ b = 8 \/ b = 9)%N as Hb' by lia.
  destruct_or!; subst; reflexivity.
Qed.

Lemma compare_div_mod (x y : N) :
  match (x `div` 10 ?= y `div` 10)%N with
  | Eq => (x `mod` 10 ?= y `mod` 10)%N
  | c => c
  end = (x ?= y)%N.
Proof.
  pose proof (N.div_mod x 10 ltac:(lia)) as Hx.
  pose proof (N.div_mod y 10 ltac:(lia)) as Hy.
  pose proof (N.mod_lt x 10 ltac:(lia)). pose proof (N.mod_lt y 10 ltac:(lia)).
  generalize dependent (x `div` 10)%N. generalize dependent (y `div` 10)%N.
  generalize dependent (x `mod` 10)%N. generalize dependent (y `mod` 10)%N.
  intros my ? mx ? dy Hy dx Hx.
  destruct (N.compare_spec dx dy);
    [destruct (N.compare_spec mx my) | |];
    symmetry.
  all: first [ apply N.compare_eq_iff; lia
             | apply N.compare_lt_iff; lia
             | apply N.compare_gt_iff; lia ].
Qed.

(** Numerals of the same width compare as the numbers they denote; what
    follows them decides between equal numbers. *)
Lemma digits_go_compare (w : nat) (x y : N) (s s' : string) :
  (x < 10 ^ N.of_nat w)%N -> (y < 10 ^ N.of_nat w)%N ->
  String.compare (digits_go w x s) (digits_go w y s') =
    match (x ?= y)%N with
    | Eq => String.compare s s'
    | c => c
    end.
Proof.
  revert x y s s'. induction w as [| w IH]; intros x y s s' Hx Hy.
  - assert (x = 0%N) as -> by (simpl in Hx; lia).
    assert (y = 0%N) as -> by (simpl in Hy; lia). done.
  - cbn [digits_go]. rewrite pow10_succ in Hx, Hy.
    rewrite IH by (apply N.Div0.div_lt_upper_bound; lia).
    cbn [String.compare].
    rewrite pretty_N_char_compare by (apply N.mod_lt; lia).
    rewrite <- (compare_div_mod x y).
    destruct (x `div` 10 ?= y `div` 10)%N; [| done | done].
    by destruct (x `mod` 10 ?= y `mod` 10)%N.
Qed.

(** ** ComparableDate *)

Section ComparableDateOrder.
Import ComparableDate.

Lemma in_range_bounds (d : t) :
  in_range d ->
  (Z.to_N (year d) < 10 ^ N.of_nat 4)%N /\
  (Z.to_N (month d) < 10 ^ N.of_nat 2)%N /\
  (Z.to_N (date d) < 10 ^ N.of_nat 2)%N.
Proof.
  intros (Hy & Hm & Hd).
  change (10 ^ N.of_nat 4)%N with 10000%N.
  change (10 ^ N.of_nat 2)%N with 100%N. lia.
Qed.

(** The string [toString] builds for a date in range: four digits, a
    dash, two digits, a dash, two digits. *)
Lemma toString_in_range (d : t) (out : list string) :
  in_range d ->
  toString d out =
    (Normal (JSStr
       (digits_go 4 (Z.to_N (year d))
          (String "-"
             (digits_go 2 (Z.to_N (month d))
                (String "-" (digits_go 2 (Z.to_N (date d)) "")))))),
     out).
Proof.
  intros Hr. destruct (in_range_bounds d Hr) as (Hy & Hm & Hd).
  destruct Hr as (Hy' & Hm' & Hd').
  unfold toString, mret, JS_ret, ret. do 2 f_equal.
  change ("" +:+ ?s) with s.
  rewrite !Number_toString_nonneg by lia.
  rewrite !padStart_digits by (done || lia).
  rewrite !append_assoc.
  rewrite <- (digits_go_app 2 (Z.to_N (month d)) "").
  rewrite <- (digits_go_app 4 (Z.to_N (year d)) "").
  reflexivity.
Qed.

Lemma no_valueOf : get_method methods "valueOf" = None.
Proof. reflexivity. Qed.

Lemma ToPrimitive_toString (d : t) : ToPrimitive methods d = toString d.
Proof. reflexivity. Qed.

Lemma padded_ltb (a b : t) :
  in_range a -> in_range b ->
  String.ltb
    (digits_go 4 (Z.to_N (year a))
       (String "-"
          (digits_go 2 (Z.to_N (month a))
             (String "-" (digits_go 2 (Z.to_N (date a)) "")))))
    (digits_go 4 (Z.to_N (year b))
       (String "-"
          (digits_go 2 (Z.to_N (month b))
             (String "-" (digits_go 2 (Z.to_N (date b)) ""))))) =
  earlier a b.
Proof.
  intros Ha Hb.
  destruct (in_range_bounds a Ha) as (Hya & Hma & Hda).
  destruct (in_range_bounds b Hb) as (Hyb & Hmb & Hdb).
  destruct Ha as (Hya' & Hma' & Hda'). destruct Hb as (Hyb' & Hmb' & Hdb').
  unfold String.ltb, earlier.
  rewrite digits_go_compare by done. rewrite Z2N.inj_compare by lia.
  destruct (year a ?= year b); [| done | done].
  cbn [String.compare]. rewrite Ascii_compare_refl.
  rewrite digits_go_compare by done. rewrite Z2N.inj_compare by lia.
  destruct (month a ?= month b); [| done | done].
  cbn [String.compare]. rewrite Ascii_compare_refl.
  rewrite digits_go_compare by done. rewrite Z2N.inj_compare by lia.
  cbn [String.compare]. unfold Z.ltb.
  by destruct (date a ?= date b).
Qed.

End ComparableDateOrder.

(** X11: for two ComparableDate objects whose year is within 0..9999 and
    whose month and day are within 0..99, [a < b] and [b > a] evaluate to
    true exactly when [a] is the earlier date; the comparison goes
    through [toString] (the class defines no [valueOf]) and prints
    nothing. *)
Theorem X11_ComparableDate_order
    (a b : ComparableDate.t) (out : list string) :
  ComparableDate.in_range a ->
  ComparableDate.in_range b ->
  less_than ComparableDate.methods a b out =
    (Normal (Some (ComparableDate.earlier a b)), out) /\
  greater_than ComparableDate.methods b a out =
    (Normal (Some (ComparableDate.earlier a b)), out).
Proof.
  intros Ha Hb.
  unfold less_than, greater_than.
  rewrite !ToPrimitive_toString.
  unfold mbind, JS_bind, bind.
  rewrite !toString_in_range by done.
  unfold mret, JS_ret, ret. cbn [less_than_primitive].
  by rewrite padded_ltb.
Qed.

Lemma X11_ComparableDate_order_witness :
  less_than ComparableDate.methods
    (ComparableDate.constructor 2023 2 15)
    (ComparableDate.constructor 2023 10 31) [] = (Normal (Some true), []) /\
  greater_than ComparableDate.methods
    (ComparableDate.constructor 2023 10 31)
    (ComparableDate.constructor 2023 2 15) [] = (Normal (Some true), []).
Proof.
  apply (X11_ComparableDate_order
           (ComparableDate.constructor 2023 2 15)
           (ComparableDate.constructor 2023 10 31) []);
    unfold ComparableDate.in_range; simpl; lia.
Defined.

(** ** FechaComparable *)

Section FechaComparableOrder.
Import FechaComparable.

Lemma FechaComparable_ToPrimitive (d : t) : ToPrimitive methods d = toString d.
Proof. reflexivity. Qed.

(** What [toString] returns and prints. *)
Lemma FechaComparable_toString_eq (d : t) (out : list string) :
  toString d out =
    (Normal (JSStr (Number_toString (año d) +:+
                    String "-" (Number_toString (mes d) +:+
                    String "-" (Number_toString (dia d))))),
     out ++ ["zz"]).
Proof.
  unfold toString, mbind, JS_bind, bind, console_log, modify, mret, JS_ret, ret.
  do 2 f_equal. change ("" +:+ ?s) with s.
  by rewrite !append_assoc.
Qed.

Lemma two_digit_month_before_one_digit (m1 m2 : Z) (r1 r2 : string) :
  10 <= m1 <= 12 -> 2 <= m2 <= 9 ->
  String.compare (Number_toString m1 +:+ r1) (Number_toString m2 +:+ r2) = Lt.
Proof.
  intros H1 H2.
  assert (m1 = 10 \/ m1 = 11 \/ m1 = 12) as H1' by lia.
  assert (m2 = 2 \/ m2 = 3 \/ m2 = 4 \/ m2 = 5 \/ m2 = 6 \/ m2 = 7 \/
          m2 = 8 \/ m2 = 9) as H2' by lia.
  destruct_or!; subst; reflexivity.
Qed.

End FechaComparableOrder.

(** X12: for two FechaComparable dates of the same year, one in a month
    from October to December and the other in a month from February to
    September, the relational operators give the wrong answer: the later
    date is found less than, and not greater than, the earlier one,
    because the comparison goes through [toString] (the class defines
    [valoeOf], not [valueOf]) and the strings are compared character by
    character; each comparison prints "zz" twice. *)
Theorem X12_FechaComparable_order_inverted
    (año mes1 dia1 mes2 dia2 : Z) (out : list string) :
  10 <= mes1 <= 12 ->
  2 <= mes2 <= 9 ->
  greater_than FechaComparable.methods
    (FechaComparable.constructor año mes1 dia1)
    (FechaComparable.constructor año mes2 dia2) out =
    (Normal (Some false), out ++ ["zz"; "zz"]) /\
  less_than FechaComparable.methods
    (FechaComparable.constructor año mes1 dia1)
    (FechaComparable.constructor año mes2 dia2) out =
    (Normal (Some true), out ++ ["zz"; "zz"]).
Proof.
  intros H1 H2.
  unfold less_than, greater_than.
  rewrite !FechaComparable_ToPrimitive.
  unfold mbind, JS_bind, bind.
  rewrite !FechaComparable_toString_eq.
  unfold mret, JS_ret, ret. cbn [less_than_primitive].
  cbn [FechaComparable.constructor FechaComparable.año FechaComparable.mes
       FechaComparable.dia].
  rewrite <- !app_assoc. cbn [app].
  unfold String.ltb.
  rewrite (String.compare_antisym
             (Number_toString año +:+ String "-" (Number_toString mes2 +:+ _))).
  rewrite !String_compare_prefix. cbn [String.compare].
  rewrite Ascii_compare_refl.
  by rewrite two_digit_month_before_one_digit.
Qed.

Lemma X12_FechaComparable_order_inverted_witness :
  greater_than FechaComparable.methods
    (FechaComparable.constructor 2023 10 31)
    (FechaComparable.constructor 2023 2 15) [] =
    (Normal (Some false), ["zz"; "zz"]).
Proof.
  apply (X12_FechaComparable_order_inverted 2023 10 31 2 15 []); lia.
Defined.

(** X13: for a date on which the arithmetic of [valoeOf] is exact,
    [valoeOf] prints "xx" and returns [dia + mes*31 + año*366]; for two
    such dates of the same year whose days are within 1..31 this number
    is smaller exactly for the earlier date. *)
Theorem X13_valoeOf_monotone_within_year
    (a b : FechaComparable.t) (out : list string) :
  FechaComparable.exact a ->
  FechaComparable.exact b ->
  FechaComparable.año a = FechaComparable.año b ->
  1 <= FechaComparable.dia a <= 31 ->
  1 <= FechaComparable.dia b <= 31 ->
  exists va vb,
    FechaComparable.valoeOf a out = (Normal (JSNum va), out ++ ["xx"]) /\
    FechaComparable.valoeOf b out = (Normal (JSNum vb), out ++ ["xx"]) /\
    FechaComparable.safe va /\ FechaComparable.safe vb /\
    (va < vb <->
     FechaComparable.mes a < FechaComparable.mes b \/
     (FechaComparable.mes a = FechaComparable.mes b /\
      FechaComparable.dia a < FechaComparable.dia b)).
Proof.
  intros Hea Heb Hy Ha Hb. eexists _, _.
  split; [reflexivity |]. split; [reflexivity |].
  destruct Hea as (_ & _ & _ & _ & _ & _ & Hsa).
  destruct Heb as (_ & _ & _ & _ & _ & _ & Hsb).
  split; [exact Hsa |]. split; [exact Hsb |]. lia.
Qed.

Lemma X13_valoeOf_monotone_within_year_witness :
  exists va vb,
    FechaComparable.valoeOf (FechaComparable.constructor 2023 2 15) [] =
      (Normal (JSNum va), ["xx"]) /\
    FechaComparable.valoeOf (FechaComparable.constructor 2023 10 31) [] =
      (Normal (JSNum vb), ["xx"]) /\
    va < vb.
Proof.
  destruct (X13_valoeOf_monotone_within_year
              (FechaComparable.constructor 2023 2 15)
              (FechaComparable.constructor 2023 10 31) [])
    as (va & vb & Ha & Hb & _ & _ & Hiff);
    [ unfold FechaComparable.exact, FechaComparable.safe; simpl; lia
    | unfold FechaComparable.exact, FechaComparable.safe; simpl; lia
    | reflexivity | simpl; lia | simpl; lia |].
  exists va, vb. split; [exact Ha |]. split; [exact Hb |].
  apply Hiff. left. simpl. lia.
Defined.

(** X14: across the end of a year [valoeOf] is not monotone, even where
    its arithmetic is exact: the number it returns for a day from
    December 27 to 31 is larger than the one it returns for a day of the
    following January that is more than 25 less (December 27 against
    January 1, December 31 against January 1 to 5). *)
Theorem X14_valoeOf_not_monotone_across_years
    (año d d' : Z) (out : list string) :
  FechaComparable.exact (FechaComparable.constructor año 12 d) ->
  FechaComparable.exact (FechaComparable.constructor (año + 1) 1 d') ->
  27 <= d <= 31 ->
  1 <= d' < d - 25 ->
  exists v v',
    FechaComparable.valoeOf (FechaComparable.constructor año 12 d) out =
      (Normal (JSNum v), out ++ ["xx"]) /\
    FechaComparable.valoeOf (FechaComparable.constructor (año + 1) 1 d') out =
      (Normal (JSNum v'), out ++ ["xx"]) /\
    FechaComparable.safe v /\ FechaComparable.safe v' /\
    v' < v.
Proof.
  intros He He' Hd Hd'. eexists _, _.
  split; [reflexivity |]. split; [reflexivity |].
  destruct He as (_ & _ & _ & _ & _ & _ & Hs).
  destruct He' as (_ & _ & _ & _ & _ & _ & Hs').
  split; [exact Hs |]. split; [exact Hs' |]. simpl. lia.
Qed.

Lemma X14_valoeOf_not_monotone_across_years_witness :
  exists v v',
    FechaComparable.valoeOf (FechaComparable.constructor 2023 12 31) [] =
      (Normal (JSNum v), ["xx"]) /\
    FechaComparable.valoeOf (FechaComparable.constructor 2024 1 1) [] =
      (Normal (JSNum v'), ["xx"]) /\
    v' < v.
Proof.
  destruct (X14_valoeOf_not_monotone_across_years 2023 31 1 [])
    as (v & v' & H1 & H2 & _ & _ & Hlt);
    [ unfold FechaComparable.exact, FechaComparable.safe; simpl; lia
    | unfold FechaComparable.exact, FechaComparable.safe; simpl; lia
    | lia | lia |].
  exists v, v'. split; [exact H1 |]. split; [exact H2 |]. exact Hlt.
Defined.

(** ** ComparableDate: the format of [toString] *)

Lemma digits_go_length (w : nat) (x : N) (s : string) :
  String.length (digits_go w x s) = (w + String.length s)%nat.
Proof.
  revert x s. induction w as [| w IH]; intros x s; [done |].
  cbn [digits_go]. rewrite IH. simpl. lia.
Qed.

Lemma String_compare_refl (s : string) : String.compare s s = Eq.
Proof.
  rewrite <- (append_nil_r s) at 1 2. by rewrite String_compare_prefix.
Qed.

Lemma earlier_neither (a b : ComparableDate.t) :
  ComparableDate.earlier a b = false ->
  ComparableDate.earlier b a = false ->
  a = b.
Proof.
  unfold ComparableDate.earlier. destruct a as [ya ma da], b as [yb mb db].
  simpl. intros Hab Hba.
  destruct (Z.compare_spec ya yb); [subst | done |];
    [| rewrite (proj2 (Z.compare_lt_iff yb ya)) in Hba by lia; done].
  rewrite Z.compare_refl in Hba.
  destruct (Z.compare_spec ma mb); [subst | done |];
    [| rewrite (proj2 (Z.compare_lt_iff mb ma)) in Hba by lia; done].
  rewrite Z.compare_refl in Hba.
  apply Z.ltb_ge in Hab, Hba. f_equal. lia.
Qed.

(** X15: for dates in range, [toString] returns a string of exactly 10
    characters, and two dates with the same string are the same date. *)
Theorem X15_ComparableDate_toString_injective
    (a b : ComparableDate.t) (out : list string) :
  ComparableDate.in_range a ->
  ComparableDate.in_range b ->
  (exists s, ComparableDate.toString a out = (Normal (JSStr s), out) /\
             String.length s = 10%nat) /\
  (ComparableDate.toString a out = ComparableDate.toString b out -> a = b).
Proof.
  intros Ha Hb. rewrite !toString_in_range by done. split.
  - eexists. split; [reflexivity |].
    rewrite digits_go_length. cbn [String.length].
    rewrite digits_go_length. cbn [String.length].
    by rewrite digits_go_length.
  - intros Heq.
    pose proof (padded_ltb a b Ha Hb) as Hab.
    pose proof (padded_ltb b a Hb Ha) as Hba.
    assert (Hs : forall s1 s2 : string,
              (Normal (JSStr s1), out) = (Normal (JSStr s2), out) -> s1 = s2)
      by (intros s1 s2 H; congruence).
    apply Hs in Heq. rewrite Heq in Hab. rewrite <- Heq in Hba.
    unfold String.ltb in Hab, Hba. rewrite String_compare_refl in Hab, Hba.
    by apply earlier_neither.
Qed.

Lemma X15_ComparableDate_toString_injective_witness :
  exists s,
    ComparableDate.toString (ComparableDate.constructor 2023 2 15) [] =
      (Normal (JSStr s), []) /\
    String.length s = 10%nat.
Proof.
  apply (X15_ComparableDate_toString_injective
           (ComparableDate.constructor 2023 2 15)
           (ComparableDate.constructor 2023 10 31) []);
    unfold ComparableDate.in_range; simpl; lia.
Defined.
